(** * go-clamd: the connection layer and the command client

    A shallow embedding of [conn.go] and [clamd.go].

    - Go strings are byte strings: [string] for text, [list byte] for what
      goes on the wire ([[]byte(s)] is [list_byte_of_string s]).
    - Go's [int] is modelled by [Z]; [byte(x)] keeps the low eight bits.
    - The socket, the dialer and the daemon are an explicit [World] that is
      threaded through every operation; each [net.Dial], [Write], source
      [Read] and reader start is recorded, in order, in [events].
    - A run-time panic (slice bounds out of range, nil dereference) is the
      [None] outcome of the function it happens in.
    - The goroutines of [readResponse] and [simpleCommand] are a labelled
      transition system in [Module Lifecycle]. *)

From Stdlib Require Import List String Ascii ZArith Lia Bool Arith.
From Stdlib Require Import Strings.Byte.
Import ListNotations.

Local Open Scope string_scope.
Local Open Scope list_scope.

(** ** Errors *)

Inductive error : Type :=
| io_EOF                                  (* io.EOF *)
| OpError (op : string) (code : nat)      (* *net.OpError from Dial, Read, Write *)
| errorString (msg : string).             (* errors.New(msg) *)

Definition errors_New (msg : string) : error := errorString msg.

(** The message of an error; exact for the values of [errors.New], an
    abbreviation for the others. *)
Definition Error (e : error) : string :=
  match e with
  | io_EOF => "EOF"
  | OpError op _ => op
  | errorString msg => msg
  end.

(** ** Text helpers of package [strings] *)

Definition LF : ascii := "010"%char.
Definition CR : ascii := "013"%char.
Definition TAB : ascii := "009"%char.
Definition SP : ascii := " "%char.

Fixpoint in_cutset (c : ascii) (cutset : string) : bool :=
  match cutset with
  | EmptyString => false
  | String d rest => if Ascii.eqb c d then true else in_cutset c rest
  end.

(** [strings.TrimLeft(s, cutset)] *)
Fixpoint TrimLeft (s cutset : string) : string :=
  match s with
  | EmptyString => EmptyString
  | String c rest => if in_cutset c cutset then TrimLeft rest cutset else s
  end.

(** [strings.TrimRight(s, cutset)] *)
Fixpoint TrimRight (s cutset : string) : string :=
  match s with
  | EmptyString => EmptyString
  | String c rest =>
      match TrimRight rest cutset with
      | EmptyString => if in_cutset c cutset then EmptyString else String c EmptyString
      | kept => String c kept
      end
  end.

(** [strings.Trim(s, cutset)] *)
Definition Trim (s cutset : string) : string :=
  TrimRight (TrimLeft s cutset) cutset.

(** [strings.HasPrefix(s, prefix)] *)
Definition HasPrefix (s pre : string) : bool := String.prefix pre s.

(** The slice expression [s[lo:]]: it panics ([None]) when [lo > len(s)]. *)
Definition slice_from (s : string) (lo : nat) : option string :=
  if Nat.leb lo (String.length s)
  then Some (String.substring lo (String.length s - lo) s)
  else None.

(** ** Integers and bytes *)

(** [byte(x)] for an [int] [x]: the low eight bits. *)
Definition byte_of_int (x : Z) : byte :=
  match Byte.of_N (Z.to_N (Z.land x 255)) with
  | Some b => b
  | None => x00
  end.

Definition int_of_byte (b : byte) : Z := Z.of_N (Byte.to_N b).

(** [len(data)] as a Go [int]. *)
Definition len {A : Type} (data : list A) : Z := Z.of_nat (List.length data).

(** A four-byte sequence read as a big-endian unsigned integer. *)
Definition be_uint32 (p : list byte) : option Z :=
  match p with
  | [b0; b1; b2; b3] =>
      Some (int_of_byte b0 * 2 ^ 24 + int_of_byte b1 * 2 ^ 16
            + int_of_byte b2 * 2 ^ 8 + int_of_byte b3)%Z
  | _ => None
  end.

(** The four bytes [sendChunk] builds for a length [n]. *)
Definition length_prefix (n : Z) : list byte :=
  [ byte_of_int (Z.shiftr n 24); byte_of_int (Z.shiftr n 16);
    byte_of_int (Z.shiftr n 8); byte_of_int (Z.shiftr n 0) ].

(** ** The world: dialer, socket and daemon *)

Inductive event : Type :=
| EvDial (network address : string) (r : option error)
| EvWrite (b : list byte) (r : option error)
| EvSourceRead (cap : nat) (data : list byte) (r : option error)
| EvReadResponse.

Record World : Type := mkWorld {
  dial_fault : string -> string -> option error; (* [None]: the dial succeeds *)
  write_faults : list (option error); (* outcome of the next [Write] calls;
                                         once exhausted every write succeeds *)
  daemon_reply : string;              (* the bytes the daemon sends back *)
  events : list event                 (* what happened so far, oldest first *)
}.

Definition log (w : World) (e : event) : World :=
  mkWorld (dial_fault w) (write_faults w) (daemon_reply w) (events w ++ [e]).

(** The bytes handed to [Write] by an event, and by a run of events. *)
Definition handed (e : event) : list byte :=
  match e with
  | EvWrite b _ => b
  | _ => []
  end.

Definition wire (evs : list event) : list byte := List.flat_map handed evs.



(** [conn.go]: [const CHUNK_SIZE = 1024] *)
Definition CHUNK_SIZE : nat := 1024.

(** [type CLAMDConn struct { net.Conn }] *)
Record CLAMDConn : Type := mkCLAMDConn {
  conn_network : string;
  conn_address : string
}.

(** [net.Dial(network, address)] *)
Definition net_Dial (w : World) (network address : string)
  : World * option CLAMDConn * option error :=
  let r := dial_fault w network address in
  let w' := log w (EvDial network address r) in
  match r with
  | Some e => (w', None, Some e)
  | None => (w', Some (mkCLAMDConn network address), None)
  end.

(** The outcome the [k]-th [Write] call from now on will have. *)
Definition write_outcome (w : World) (k : nat) : option error :=
  List.nth k (write_faults w) None.

(** [conn.Write(b)]: the error result (the byte count is never used). *)
Definition Write (w : World) (conn : CLAMDConn) (b : list byte)
  : World * option error :=
  let r := write_outcome w 0 in
  let w' := mkWorld (dial_fault w) (List.tl (write_faults w)) (daemon_reply w)
                    (events w ++ [EvWrite b r]) in
  (w', r).

(** ** conn.go *)

(** [func (conn *CLAMDConn) sendCommand(command string) error] *)
Definition sendCommand (w : World) (conn : CLAMDConn) (command : string)
  : World * option error :=
  let commandBytes :=
    list_byte_of_string ("n" ++ command ++ String LF EmptyString) in
  let '(w, err) := Write w conn commandBytes in
  (w, err).

(** [func (conn *CLAMDConn) sendEOF() error] *)
Definition sendEOF (w : World) (conn : CLAMDConn) : World * option error :=
  let '(w, err) := Write w conn [x00; x00; x00; x00] in
  (w, err).

(** [func (conn *CLAMDConn) sendChunk(data []byte) error] *)
Definition sendChunk (w : World) (conn : CLAMDConn) (data : list byte)
  : World * option error :=
  let lenData := len data in
  let buf := [ byte_of_int (Z.shiftr lenData 24);
               byte_of_int (Z.shiftr lenData 16);
               byte_of_int (Z.shiftr lenData 8);
               byte_of_int (Z.shiftr lenData 0) ] in
  let a := buf in
  let b := List.map (fun x => x) a in
  let '(w, _) := Write w conn b in
  let '(w, err) := Write w conn data in
  (w, err).

(** [func newCLAMDTcpConn(address string)], returning the connection and
    the error *)
Definition newCLAMDTcpConn (w : World) (address : string)
  : World * option CLAMDConn * option error :=
  let '(w, conn, err) := net_Dial w "tcp" address in
  match err with
  | Some e => (w, None, Some e)
  | None => (w, conn, err)
  end.

(** [func newCLAMDUnixConn(address string)], returning the connection and
    the error *)
Definition newCLAMDUnixConn (w : World) (address : string)
  : World * option CLAMDConn * option error :=
  let '(w, conn, err) := net_Dial w "unix" address in
  match err with
  | Some e => (w, None, Some e)
  | None => (w, conn, err)
  end.

(** [reader.ReadString('\n')] on the bytes still to come: the line up to and
    including the delimiter and the bytes after it, or, when the stream ends
    first, what was left together with [io.EOF]. *)
Fixpoint ReadString (buf : string) : string * option error * string :=
  match buf with
  | EmptyString => (EmptyString, Some io_EOF, EmptyString)
  | String c rest =>
      if Ascii.eqb c LF then (String c EmptyString, None, rest)
      else let '(line, err, rest') := ReadString rest in
           (String c line, err, rest')
  end.

(** The loop of the goroutine started by [readResponse]: the lines it sends
    on the channel before it closes it. One unit of [fuel] per line read. *)
Fixpoint reader_loop (fuel : nat) (buf : string) : list string :=
  match fuel with
  | O => []
  | S fuel' =>
      let '(line, err, rest) := ReadString buf in
      match err with
      | Some _ => []
      | None =>
          let line := TrimRight line (" " ++ String TAB (String CR (String LF ""))) in
          line :: reader_loop fuel' rest
      end
  end.

(** A channel as its consumer sees it: the values still to be received
    before it is closed. *)
Definition chan : Type := list string.

(** The lines the reader publishes for a reply. The stream holds at most
    [length] lines, so the loop never runs out of this fuel. *)
Definition published (reply : string) : chan :=
  reader_loop (S (String.length reply)) reply.

(** [func (c *CLAMDConn) readResponse()], returning the channel and the error:
    the reader is started and the channel handed out. *)
Definition readResponse (w : World) (conn : CLAMDConn)
  : World * chan * option error :=
  let ch := published (daemon_reply w) in
  (log w EvReadResponse, ch, None).

(** ** clamd.go *)

(** The Go convention of a value with an [error]: exactly one of them is
    set at every [return] of the functions below. *)
Inductive result (A : Type) : Type :=
| Ok (a : A)
| Err (e : error).
Arguments Ok {A} a.
Arguments Err {A} e.

(** [type Clamd struct { address string }] *)
Record Clamd : Type := mkClamd { address : string }.

(** [type Stats struct] *)
Record Stats : Type := mkStats {
  Pools : string;
  State : string;
  Threads : string;
  Memstats : string;
  Queue : string
}.

(** [func NewClamd(address string) *Clamd] *)
Definition NewClamd (address : string) : Clamd := mkClamd address.

(** [func (c *Clamd) newConnection()] *)
Definition newConnection (w : World) (c : Clamd)
  : World * option CLAMDConn * option error :=
  let '(w, conn, err) := newCLAMDUnixConn w (address c) in
  (w, conn, err).

(** [func (c *Clamd) simpleCommand(command string) (chan string, error)].
    A [nil] connection with a [nil] error is never returned by
    [newCLAMDUnixConn]; calling a method on it would be a nil dereference,
    the [None] outcome. *)
Definition simpleCommand (w : World) (c : Clamd) (command : string)
  : World * option (result chan) :=
  let '(w, conn, err) := newCLAMDUnixConn w (address c) in
  match err with
  | Some e => (w, Some (Err e))
  | None =>
      match conn with
      | None => (w, None)
      | Some conn =>
          let '(w, err) := sendCommand w conn command in
          match err with
          | Some e => (w, Some (Err e))
          | None =>
              let '(w, ch, err) := readResponse w conn in
              match err with
              | Some e => (w, Some (Err e))
              | None => (w, Some (Ok ch))
              end
          end
      end
  end.

(** The receive expression [<-ch]: the next value, or the zero value once
    the channel is closed. *)
Definition recv (ch : chan) : string * chan :=
  match ch with
  | [] => (EmptyString, [])
  | s :: rest => (s, rest)
  end.

(** [fmt.Sprintf("Invalid response, got %s.", s)] *)
Definition invalid_response (s : string) : string :=
  "Invalid response, got " ++ s ++ ".".

(** The [select] of [Ping] on the channel it got from [simpleCommand]. *)
Definition Ping_select (ch : chan) : option error :=
  let '(s, _) := recv ch in
  if String.eqb s "PONG" then None
  else Some (errors_New (invalid_response s)).

(** [func (c *Clamd) Ping() error] *)
Definition Ping (w : World) (c : Clamd) : World * option (option error) :=
  let '(w, r) := simpleCommand w c "PING" in
  match r with
  | None => (w, None)
  | Some (Err e) => (w, Some (Some e))
  | Some (Ok ch) => (w, Some (Ping_select ch))
  end.

(** The [select] of [Reload]. *)
Definition Reload_select (ch : chan) : option error :=
  let '(s, _) := recv ch in
  if String.eqb s "RELOADING" then None
  else Some (errors_New (invalid_response s)).

(** [func (c *Clamd) Reload() error] *)
Definition Reload (w : World) (c : Clamd) : World * option (option error) :=
  let '(w, r) := simpleCommand w c "RELOAD" in
  match r with
  | None => (w, None)
  | Some (Err e) => (w, Some (Some e))
  | Some (Ok ch) => (w, Some (Reload_select ch))
  end.

(** [func (c *Clamd) Version() (chan string, error)] *)
Definition Version (w : World) (c : Clamd) : World * option (result chan) :=
  simpleCommand w c "VERSION".

(** [func (c *Clamd) ScanFile(path string) (chan string, error)] *)
Definition ScanFile (w : World) (c : Clamd) (path : string)
  : World * option (result chan) :=
  simpleCommand w c ("SCAN " ++ path).

(** [func (c *Clamd) Shutdown() error]: the channel is dropped. *)
Definition Shutdown (w : World) (c : Clamd) : World * option (option error) :=
  let '(w, r) := simpleCommand w c "SHUTDOWN" in
  match r with
  | None => (w, None)
  | Some (Err e) => (w, Some (Some e))
  | Some (Ok _) => (w, Some None)
  end.

(** [func (c *Clamd) RawScanFile(path string) (chan string, error)] *)
Definition RawScanFile (w : World) (c : Clamd) (path : string)
  : World * option (result chan) :=
  simpleCommand w c ("RAWSCAN " ++ path).

(** [func (c *Clamd) MultiScanFile(path string) (chan string, error)] *)
Definition MultiScanFile (w : World) (c : Clamd) (path : string)
  : World * option (result chan) :=
  simpleCommand w c ("MULTISCAN " ++ path).

(** [func (c *Clamd) ContScanFile(path string) (chan string, error)] *)
Definition ContScanFile (w : World) (c : Clamd) (path : string)
  : World * option (result chan) :=
  simpleCommand w c ("CONTSCAN " ++ path).

(** [func (c *Clamd) AllMatchScanFile(path string) (chan string, error)] *)
Definition AllMatchScanFile (w : World) (c : Clamd) (path : string)
  : World * option (result chan) :=
  simpleCommand w c ("ALLMATCHSCAN " ++ path).

(** The body of the [for s := range ch] loop of [Stats] for one line;
    [None] is the run-time panic of [s[6:]]. *)
Definition Stats_line (stats : Stats) (s : string) : option Stats :=
  if HasPrefix s "POOLS" then
    match slice_from s 6 with
    | None => None
    | Some t =>
        Some (mkStats (Trim t " ") (State stats) (Threads stats)
                      (Memstats stats) (Queue stats))
    end
  else if HasPrefix s "STATE" then
    Some (mkStats (Pools stats) s (Threads stats) (Memstats stats) (Queue stats))
  else if HasPrefix s "THREADS" then
    Some (mkStats (Pools stats) (State stats) s (Memstats stats) (Queue stats))
  else if HasPrefix s "QUEUE" then
    Some (mkStats (Pools stats) (State stats) (Threads stats) (Memstats stats) s)
  else if HasPrefix s "MEMSTATS" then
    Some (mkStats (Pools stats) (State stats) (Threads stats) s (Queue stats))
  else if HasPrefix s "END" then
    Some stats
  else
    Some stats.

(** [for s := range ch { ... }]: every line until the channel is closed. *)
Fixpoint Stats_range (ch : chan) (stats : Stats) : option Stats :=
  match ch with
  | [] => Some stats
  | s :: rest =>
      match Stats_line stats s with
      | None => None
      | Some stats' => Stats_range rest stats'
      end
  end.

(** [func (c *Clamd) Stats()], returning the record and the error *)
Definition Stats_cmd (w : World) (c : Clamd) : World * option (result Stats) :=
  let '(w, r) := simpleCommand w c "STATS" in
  match r with
  | None => (w, None)
  | Some (Err e) => (w, Some (Err e))
  | Some (Ok ch) =>
      let stats := mkStats "" "" "" "" "" in
      match Stats_range ch stats with
      | None => (w, None)
      | Some stats => (w, Some (Ok stats))
      end
  end.

(** *** ScanStream *)

Section Source.

(** An [io.Reader]: [Read r n] is the call [r.Read(buf)] on a buffer of
    [n] bytes; it gives the bytes [buf[:nr]] that were read, the error and
    the reader afterwards. *)
Variable Src : Type.
Variable Read : Src -> nat -> list byte * option error * Src.

(** The [for] loop of [ScanStream]. It may go on for ever on a source
    that never ends: [None] is the loop still running when [fuel] reads
    were made. The chunk is [buf[:nr]] for a reader that keeps the
    contract [nr <= len(buf)]; a reader that breaks it makes that slice
    panic, which the loop below does not model: the properties of the
    upload carry the contract as a hypothesis. *)
Fixpoint upload (fuel : nat) (w : World) (conn : CLAMDConn) (r : Src)
  : option (World * Src) :=
  match fuel with
  | O => None
  | S fuel' =>
      let '(data, err, r) := Read r CHUNK_SIZE in
      let nr := len data in
      let w := log w (EvSourceRead CHUNK_SIZE data err) in
      match err with
      | Some _ => Some (w, r)
      | None =>
          if Z.eqb nr 0 then Some (w, r)
          else
            let '(w, _) := sendChunk w conn data in
            upload fuel' w conn r
      end
  end.

(** [func (c *Clamd) ScanStream(r io.Reader) (chan string, error)] *)
Definition ScanStream (fuel : nat) (w : World) (c : Clamd) (r : Src)
  : option (World * option (result chan)) :=
  let '(w, conn, err) := newConnection w c in
  match err with
  | Some e => Some (w, Some (Err e))
  | None =>
      match conn with
      | None => Some (w, None)
      | Some conn =>
          let '(w, _) := sendCommand w conn "INSTREAM" in
          match upload fuel w conn r with
          | None => None
          | Some (w, _) =>
              let '(w, err) := sendEOF w conn in
              match err with
              | Some e => Some (w, Some (Err e))
              | None =>
                  let '(w, ch, _) := readResponse w conn in
                  Some (w, Some (Ok ch))
              end
          end
      end
  end.

(** The reader after [k] more calls of [Read], and the result of the call
    after those. *)
Fixpoint reader_after (k : nat) (r : Src) : Src :=
  match k with
  | O => r
  | S k' => reader_after k' (snd (Read r CHUNK_SIZE))
  end.

Definition read_at (k : nat) (r : Src) : list byte * option error :=
  fst (Read (reader_after k r) CHUNK_SIZE).

(** A read that ends the loop: an error (end of source included) or no
    byte. *)
Definition stops (res : list byte * option error) : bool :=
  match snd res with
  | Some _ => true
  | None => Z.eqb (len (fst res)) 0
  end.

(** The call number [k] (from 0) is the first one that ends the loop. *)
Definition first_stop (k : nat) (r : Src) : Prop :=
  stops (read_at k r) = true
  /\ forall j, j < k -> stops (read_at j r) = false.

(** The events of forwarding the first [k] reads: each read, then the
    write of the length prefix and the write of the payload, with the
    outcomes [faults] gives them. *)
Fixpoint forwarded (k : nat) (faults : list (option error)) (r : Src)
  : list event :=
  match k with
  | O => []
  | S k' =>
      let '(data, _, r') := Read r CHUNK_SIZE in
      EvSourceRead CHUNK_SIZE data None
        :: EvWrite (length_prefix (len data)) (List.nth 0 faults None)
        :: EvWrite data (List.nth 1 faults None)
        :: forwarded k' (List.tl (List.tl faults)) r'
  end.

(** The same events, read by read: what forwarding the read number [j]
    does when [faults] are the outcomes of the writes of the loop. *)
Definition chunk_events (faults : list (option error)) (r : Src) (j : nat)
  : list event :=
  let data := fst (read_at j r) in
  [ EvSourceRead CHUNK_SIZE data None;
    EvWrite (length_prefix (len data)) (List.nth (2 * j) faults None);
    EvWrite data (List.nth (2 * j + 1) faults None) ].

(** Everything [ScanStream] does on a reachable daemon when the source
    stops at call [k]: the dial, the command frame, the [k] chunks, the
    stopping read, the terminator and, if that write went well, the start
    of the reader. *)
Definition ScanStream_events (w : World) (c : Clamd) (r : Src) (k : nat)
  : list event :=
  let faults := write_faults w in
  let eof_outcome := List.nth (2 * k + 1) faults None in
  [ EvDial "unix" (address c) None;
    EvWrite (list_byte_of_string ("nINSTREAM" ++ String LF "")) (List.nth 0 faults None) ]
    ++ List.flat_map (chunk_events (List.tl faults) r) (List.seq 0 k)
    ++ [ EvSourceRead CHUNK_SIZE (fst (read_at k r)) (snd (read_at k r));
         EvWrite [x00; x00; x00; x00] eof_outcome ]
    ++ match eof_outcome with
       | None => [EvReadResponse]
       | Some _ => []
       end.

End Source.

(** ** The goroutines of one command

    What runs once the command is on the wire: the caller's thread goes
    through [readResponse] ([wg.Add(1)], [go] reader) and back in
    [simpleCommand] or [ScanStream] starts the goroutine that waits and
    closes; the reader loops over [ReadString] and sends on the unbuffered
    channel, its deferred function closes the channel and calls
    [wg.Done()]; the consumer receives. Each label is one atomic action of
    one goroutine and a schedule is any interleaving of them. *)
Module Lifecycle.

(** Where the caller's thread is. *)
Inductive main_pc : Type :=
| MWgAdd        (* about to run [wg.Add(1)] *)
| MGoReader     (* about to run [go func() { ... }()] of [readResponse] *)
| MGoCloser     (* about to run [go func() { wg.Wait(); conn.Close() }()] *)
| MReturned.    (* [return ch, err] *)

(** Where the reader goroutine is. *)
Inductive reader_pc : Type :=
| RIdle                   (* not started *)
| RRead                   (* at [reader.ReadString('\n')] *)
| RSend (line : string)   (* at [ch <- line] *)
| RCloseCh                (* deferred: at [close(ch)] *)
| RWgDone                 (* deferred: at [wg.Done()] *)
| RExited.

(** Where the closing goroutine is. *)
Inductive closer_pc : Type :=
| CIdle         (* not started *)
| CWait         (* at [wg.Wait()] *)
| CClose        (* at [conn.Close()] *)
| CExited.

Record state : Type := mkState {
  wg : Z;                   (* the counter of the [sync.WaitGroup] *)
  ch_closed : bool;         (* [close(ch)] was run *)
  conn_closed : bool;       (* [conn.Close()] was run *)
  main : main_pc;
  reader : reader_pc;
  closer : closer_pc;
  stream : string;          (* bytes of the daemon not yet read *)
  received : list string    (* lines the consumer received, oldest first *)
}.

Inductive label : Type :=
| LWgAdd        (* caller: [wg.Add(1)] *)
| LGoReader     (* caller: starts the reader *)
| LGoCloser     (* caller: starts the closer *)
| LReadLine     (* reader: [ReadString] gives a line, which is trimmed *)
| LReadStop     (* reader: [ReadString] gives [io.EOF] or another error *)
| LSend         (* reader and consumer: [ch <- line] meets [<-ch] *)
| LCloseCh      (* reader: [close(ch)] *)
| LWgDone       (* reader: [wg.Done()] *)
| LWaitReturns  (* closer: [wg.Wait()] returns, the counter being zero *)
| LClose.       (* closer: [conn.Close()] *)

Definition init (reply : string) : state :=
  mkState 0 false false MWgAdd RIdle CIdle reply [].

Definition cutset : string := " " ++ String TAB (String CR (String LF "")).

(** One action; [None] when the goroutine is not at that action or is
    blocked there. A read can stop with an error at any time; a read
    that gives a line does not look at [conn_closed], since [bufio] may
    still hold bytes: the model allows more than the program does. *)
Definition step (l : label) (s : state) : option state :=
  match l with
  | LWgAdd =>
      match main s with
      | MWgAdd =>
          Some (mkState (wg s + 1) (ch_closed s) (conn_closed s) MGoReader
                        (reader s) (closer s) (stream s) (received s))
      | _ => None
      end
  | LGoReader =>
      match main s, reader s with
      | MGoReader, RIdle =>
          Some (mkState (wg s) (ch_closed s) (conn_closed s) MGoCloser
                        RRead (closer s) (stream s) (received s))
      | _, _ => None
      end
  | LGoCloser =>
      match main s, closer s with
      | MGoCloser, CIdle =>
          Some (mkState (wg s) (ch_closed s) (conn_closed s) MReturned
                        (reader s) CWait (stream s) (received s))
      | _, _ => None
      end
  | LReadLine =>
      match reader s, ReadString (stream s) with
      | RRead, (line, None, rest) =>
          Some (mkState (wg s) (ch_closed s) (conn_closed s) (main s)
                        (RSend (TrimRight line cutset)) (closer s) rest
                        (received s))
      | _, _ => None
      end
  | LReadStop =>
      match reader s with
      | RRead =>
          Some (mkState (wg s) (ch_closed s) (conn_closed s) (main s)
                        RCloseCh (closer s) (stream s) (received s))
      | _ => None
      end
  | LSend =>
      match reader s with
      | RSend line =>
          Some (mkState (wg s) (ch_closed s) (conn_closed s) (main s)
                        RRead (closer s) (stream s) (received s ++ [line]))
      | _ => None
      end
  | LCloseCh =>
      match reader s with
      | RCloseCh =>
          Some (mkState (wg s) true (conn_closed s) (main s)
                        RWgDone (closer s) (stream s) (received s))
      | _ => None
      end
  | LWgDone =>
      match reader s with
      | RWgDone =>
          Some (mkState (wg s - 1) (ch_closed s) (conn_closed s) (main s)
                        RExited (closer s) (stream s) (received s))
      | _ => None
      end
  | LWaitReturns =>
      match closer s with
      | CWait =>
          if Z.eqb (wg s) 0
          then Some (mkState (wg s) (ch_closed s) (conn_closed s) (main s)
                             (reader s) CClose (stream s) (received s))
          else None
      | _ => None
      end
  | LClose =>
      match closer s with
      | CClose =>
          Some (mkState (wg s) (ch_closed s) true (main s)
                        (reader s) CExited (stream s) (received s))
      | _ => None
      end
  end.

(** A schedule, run action by action. *)
Fixpoint run (sched : list label) (s : state) : option state :=
  match sched with
  | [] => Some s
  | l :: rest =>
      match step l s with
      | None => None
      | Some s' => run rest s'
      end
  end.

Definition reachable (reply : string) (s : state) : Prop :=
  exists sched, run sched (init reply) = Some s.

(** The reader can still read from the socket or publish a line. *)
Definition reader_active (s : state) : bool :=
  match reader s with
  | RIdle | RRead | RSend _ => true
  | RCloseCh | RWgDone | RExited => false
  end.

(** The completion signal has fired: [wg.Done()] was run. *)
Definition signal_fired (s : state) : bool :=
  match reader s with
  | RExited => true
  | _ => false
  end.

(** What holds between the three program counters and the counter. *)
Definition inv (s : state) : Prop :=
  match main s with
  | MWgAdd => wg s = 0%Z /\ reader s = RIdle /\ closer s = CIdle
  | MGoReader => wg s = 1%Z /\ reader s = RIdle /\ closer s = CIdle
  | MGoCloser => closer s = CIdle /\ reader s <> RIdle
  | MReturned => closer s <> CIdle /\ reader s <> RIdle
  end
  /\ (match reader s with
      | RExited => wg s = 0%Z
      | RIdle => True
      | _ => wg s = 1%Z
      end)
  /\ (match closer s with
      | CIdle | CWait => conn_closed s = false
      | CClose => conn_closed s = false /\ reader s = RExited
      | CExited => reader s = RExited
      end)
  /\ (match reader s with
      | RWgDone | RExited => ch_closed s = true
      | _ => ch_closed s = false
      end).

(** The consumer has received, in order, the first lines of the reply. *)
Definition in_order (reply : string) (s : state) : Prop :=
  match reader s with
  | RIdle | RRead => published reply = received s ++ published (stream s)
  | RSend line => published reply = received s ++ line :: published (stream s)
  | RCloseCh | RWgDone | RExited =>
      exists tail, published reply = received s ++ tail
  end.

End Lifecycle.

(** ** Concrete runs used below *)

(** The daemon answers a [PING]; one full interleaving of the goroutines. *)
Definition pong_reply : string := "PONG" ++ String LF "".

Definition pong_schedule : list Lifecycle.label :=
  [ Lifecycle.LWgAdd; Lifecycle.LGoReader; Lifecycle.LGoCloser;
    Lifecycle.LReadLine; Lifecycle.LSend; Lifecycle.LReadStop;
    Lifecycle.LCloseCh; Lifecycle.LWgDone; Lifecycle.LWaitReturns;
    Lifecycle.LClose ].

(** [clamd.go]: [var EICAR], the standard test payload. *)
Definition EICAR : list byte :=
  list_byte_of_string
    "X5O!P%@AP[4\PZX54(P^)7CC)7}$EICAR-STANDARD-ANTIVIRUS-TEST-FILE!$H+H*".

(** A world where the daemon is reachable, no write fails and the reply is
    [PONG]; and one whose next writes fail as listed. *)
Definition calm_world : World :=
  mkWorld (fun _ _ => None) [] pong_reply [].

Definition faulty_world (faults : list (option error)) : World :=
  mkWorld (fun _ _ => None) faults pong_reply [].

Definition unix_conn : CLAMDConn := mkCLAMDConn "unix" "/var/run/clamav/clamd.ctl".

Definition EPIPE : error := OpError "write" 32.

(** A world whose daemon sends [reply]; everything else goes well. *)
Definition replying_world (reply : string) : World :=
  mkWorld (fun _ _ => None) [] reply [].

(** Lines joined the way the daemon sends them, each ended by a line feed. *)
Fixpoint unlines (ls : list string) : string :=
  match ls with
  | [] => EmptyString
  | l :: rest => (l ++ String LF (unlines rest))%string
  end.

(** The reply of the statistics example. *)
Definition stats_lines : list string :=
  [ "POOLS 2"; "STATE VALID"; "THREADS live 2"; "QUEUE 0";
    "MEMSTATS heap 10M"; "END" ].

(** A payload of 2^32 bytes (4 GiB), every byte zero. It is never
    evaluated: only its length is used. *)
Definition four_GiB : list byte := List.repeat x00 (Z.to_nat (2 ^ 32)).

(** ** The specification's wording, for comparison *)

(** A sequence that yields exactly one line, equal to [l]. *)
Definition spec_yields_exactly (l : string) (ch : chan) : Prop := ch = [l].

(** The number of lines of a sequence that are equal to [l]. *)
Definition spec_count (l : string) (ch : chan) : nat :=
  List.count_occ string_dec ch l.

(** The text after a prefix of [n] bytes. *)
Definition spec_text_after (n : nat) (s : string) : string :=
  String.substring n (String.length s - n) s.

(** The classification of one statistics line as the specification words
    it: for [POOLS] the text after the prefix, spaces trimmed. *)
Definition spec_Stats_line (stats : Stats) (s : string) : Stats :=
  if HasPrefix s "POOLS" then
    mkStats (Trim (spec_text_after (String.length "POOLS") s) " ")
            (State stats) (Threads stats) (Memstats stats) (Queue stats)
  else if HasPrefix s "STATE" then
    mkStats (Pools stats) s (Threads stats) (Memstats stats) (Queue stats)
  else if HasPrefix s "THREADS" then
    mkStats (Pools stats) (State stats) s (Memstats stats) (Queue stats)
  else if HasPrefix s "QUEUE" then
    mkStats (Pools stats) (State stats) (Threads stats) (Memstats stats) s
  else if HasPrefix s "MEMSTATS" then
    mkStats (Pools stats) (State stats) (Threads stats) s (Queue stats)
  else stats.






(** Two data sources. A [bytes.Reader] over a byte sequence: it fills the
    buffer from what is left and reports [io.EOF] once nothing is. And a
    scripted source, which gives the listed results one after the other
    (cut to the buffer) and [io.EOF] after them. *)
Definition bytes_Reader : Type := list byte.

Definition bytes_Read (r : bytes_Reader) (n : nat)
  : list byte * option error * bytes_Reader :=
  match r with
  | [] => ([], Some io_EOF, [])
  | _ => (List.firstn n r, None, List.skipn n r)
  end.

Definition script_Reader : Type := list (list byte * option error).

Definition script_Read (r : script_Reader) (n : nat)
  : list byte * option error * script_Reader :=
  match r with
  | [] => ([], Some io_EOF, [])
  | (data, err) :: rest => (List.firstn n data, err, rest)
  end.


(** A source that gives the test payload, then a read of no byte and no
    error, and would give more after it. *)
Definition stalling_source : script_Reader :=
  [ (EICAR, None); ([], None); (EICAR, None) ].

(** A source of two chunks. *)
Definition two_chunks : script_Reader :=
  [ (EICAR, None); (EICAR, None) ].

(** The command frame of [INSTREAM]. *)
Definition instream_frame : list byte :=
  list_byte_of_string ("nINSTREAM" ++ String LF "").

Definition unix_clamd : Clamd := NewClamd "/var/run/clamav/clamd.ctl".

(** ** Vocabulary of the further properties *)

(** How often a character occurs in a text, and the last character. *)
Fixpoint count_char (c : ascii) (s : string) : nat :=
  match s with
  | EmptyString => 0
  | String d rest => (if Ascii.eqb d c then 1 else 0) + count_char c rest
  end.

Fixpoint last_char (s : string) : option ascii :=
  match s with
  | EmptyString => None
  | String c EmptyString => Some c
  | String _ rest => last_char rest
  end.

Definition first_char (s : string) : option ascii :=
  match s with
  | EmptyString => None
  | String c _ => Some c
  end.

(** The trailing characters the reader trims. *)
Definition whitespace : string := " " ++ String TAB (String CR (String LF "")).

(** A line as the reader publishes it: no line feed in it, and no
    whitespace at its end. *)
Definition clean_line (l : string) : Prop :=
  count_char LF l = 0
  /\ match last_char l with
     | Some c => in_cutset c whitespace = false
     | None => True
     end.

(** The schedule of a command whose consumer receives every line: the
    caller's three actions, [n] times a read and a send, then the end of
    the stream, the reader's deferred function and the closer. *)
Definition draining_schedule (n : nat) : list Lifecycle.label :=
  [ Lifecycle.LWgAdd; Lifecycle.LGoReader; Lifecycle.LGoCloser ]
    ++ List.concat (List.repeat [Lifecycle.LReadLine; Lifecycle.LSend] n)
    ++ [ Lifecycle.LReadStop; Lifecycle.LCloseCh; Lifecycle.LWgDone;
         Lifecycle.LWaitReturns; Lifecycle.LClose ].

Definition is_close (l : Lifecycle.label) : bool :=
  match l with
  | Lifecycle.LClose => true
  | _ => false
  end.

Definition is_send (l : Lifecycle.label) : bool :=
  match l with
  | Lifecycle.LSend => true
  | _ => false
  end.

(** An upper bound on the actions the goroutines still have to make. *)
Definition steps_left (s : Lifecycle.state) : nat :=
  match Lifecycle.main s with
  | Lifecycle.MWgAdd => 3
  | Lifecycle.MGoReader => 2
  | Lifecycle.MGoCloser => 1
  | Lifecycle.MReturned => 0
  end
  + match Lifecycle.reader s with
    | Lifecycle.RIdle | Lifecycle.RRead =>
        2 * count_char LF (Lifecycle.stream s) + 3
    | Lifecycle.RSend _ => 2 * count_char LF (Lifecycle.stream s) + 4
    | Lifecycle.RCloseCh => 2
    | Lifecycle.RWgDone => 1
    | Lifecycle.RExited => 0
    end
  + match Lifecycle.closer s with
    | Lifecycle.CIdle | Lifecycle.CWait => 2
    | Lifecycle.CClose => 1
    | Lifecycle.CExited => 0
    end.

(** The frame of a command: the marker, the text, a line feed. *)
Definition command_frame (command : string) : list byte :=
  x6e :: list_byte_of_string command ++ [x0a].

(** The events a run added to those of the world it started from. *)
Definition events_since (w w' : World) : list event :=
  List.skipn (List.length (events w)) (events w').

(** A statistics line that starts with one of the five stored prefixes. *)
Definition stats_relevant (s : string) : bool :=
  HasPrefix s "POOLS" || HasPrefix s "STATE" || HasPrefix s "THREADS"
  || HasPrefix s "QUEUE" || HasPrefix s "MEMSTATS".

(** The bytes of the chunks of the first [k] reads of a source, framed. *)
Definition framed_chunks (Src : Type)
  (Read : Src -> nat -> list byte * option error * Src) (r : Src) (k : nat)
  : list byte :=
  List.flat_map
    (fun j => length_prefix (len (fst (read_at Src Read j r)))
              ++ fst (read_at Src Read j r))
    (List.seq 0 k).

(** The bytes of the first [k] reads of a source, one after the other. *)
Definition read_bytes (Src : Type)
  (Read : Src -> nat -> list byte * option error * Src) (r : Src) (k : nat)
  : list byte :=
  List.flat_map (fun j => fst (read_at Src Read j r)) (List.seq 0 k).

(** * Properties *)

(** ** C1: the socket is closed only after the reader's signal *)

Section LifecycleFacts.
Import Lifecycle.

Lemma inv_init : forall reply, inv (init reply).
Proof. intros reply. unfold inv, init. simpl. repeat split; discriminate. Qed.

Ltac step_cases :=
  repeat match goal with
    | H : Some _ = Some _ |- _ => injection H as <-
    | H : None = Some _ |- _ => discriminate H
    | H : context [match ?x with _ => _ end] |- _ =>
        let E := fresh "E" in destruct x eqn:E
    end.

Lemma inv_step : forall l s s', inv s -> step l s = Some s' -> inv s'.
Proof.
  intros l s s' (Hm & Hr & Hc & Hch) Hs.
  destruct l; unfold step in Hs; step_cases; unfold inv; simpl;
    repeat match goal with
      | H : _ = _ |- _ => rewrite H in *
      end;
    simpl in *; intuition (try congruence; try lia).
Qed.

Lemma inv_run : forall sched s s', inv s -> run sched s = Some s' -> inv s'.
Proof.
  induction sched as [|l sched IH]; simpl; intros s s' Hi Hr.
  - injection Hr as <-. exact Hi.
  - destruct (step l s) as [s1|] eqn:Hs; [|discriminate].
    eapply IH; [|exact Hr]. eapply inv_step; eauto.
Qed.

Lemma inv_reachable : forall reply s, reachable reply s -> inv s.
Proof.
  intros reply s [sched Hr]. eapply inv_run; [apply inv_init | exact Hr].
Qed.

Lemma run_app : forall pre post s,
    run (pre ++ post) s =
    match run pre s with Some s1 => run post s1 | None => None end.
Proof.
  induction pre as [|l pre IH]; simpl; intros post s; [reflexivity|].
  destruct (step l s); [apply IH | reflexivity].
Qed.

(** Only [wg.Done()] takes the reader to its end. *)
Lemma exited_needs_done : forall sched s s',
    run sched s = Some s' -> reader s' = RExited -> reader s <> RExited ->
    In LWgDone sched.
Proof.
  induction sched as [|l sched IH]; simpl; intros s s' Hr He Hn.
  - injection Hr as <-. contradiction.
  - destruct (step l s) as [s1|] eqn:Hs; [|discriminate].
    destruct l; try (now left); right; eapply IH; eauto;
      unfold step in Hs; step_cases; simpl; congruence.
Qed.

Lemma ReadString_shorter : forall buf line rest,
    ReadString buf = (line, None, rest) ->
    String.length rest < String.length buf.
Proof.
  induction buf as [|c buf IH]; intros line rest H; cbn [ReadString] in H;
    [discriminate|].
  destruct (Ascii.eqb c LF).
  - injection H as _ <-. cbn. lia.
  - destruct (ReadString buf) as [[l e] r'] eqn:E.
    injection H as _ -> <-. specialize (IH l r' eq_refl). cbn. lia.
Qed.

(** The reader never runs out of fuel: any fuel above the length of the
    stream gives the same lines. *)
Lemma reader_loop_fuel : forall n f1 f2 buf,
    String.length buf <= n ->
    String.length buf < f1 -> String.length buf < f2 ->
    reader_loop f1 buf = reader_loop f2 buf.
Proof.
  induction n as [|n IH]; intros f1 f2 buf Hn H1 H2;
    (destruct f1 as [|f1]; [lia|]); (destruct f2 as [|f2]; [lia|]);
    cbn [reader_loop];
    destruct (ReadString buf) as [[line err] rest] eqn:E;
    (destruct err as [e|]; [reflexivity|]);
    apply ReadString_shorter in E; [lia|].
  f_equal. apply IH; lia.
Qed.

Lemma published_eq : forall buf,
    published buf =
    match ReadString buf with
    | (line, None, rest) => TrimRight line cutset :: published rest
    | (_, Some _, _) => []
    end.
Proof.
  intros buf. unfold published at 1. cbn [reader_loop].
  destruct (ReadString buf) as [[line err] rest] eqn:E.
  destruct err as [e|]; [reflexivity|].
  apply ReadString_shorter in E. unfold published, cutset. f_equal.
  apply (reader_loop_fuel (String.length rest)); lia.
Qed.

Lemma in_order_step : forall reply l s s',
    in_order reply s -> step l s = Some s' -> in_order reply s'.
Proof.
  intros reply l s s' Hi Hs. unfold in_order in *.
  destruct l; unfold step in Hs; step_cases; cbn [reader received stream] in *;
    repeat match goal with
      | H : reader _ = _ |- _ => rewrite H in *
      end;
    try assumption.
  - rewrite Hi, (published_eq (stream s)), E0. reflexivity.
  - eexists. exact Hi.
  - rewrite Hi, <- app_assoc. reflexivity.
Qed.

Lemma in_order_run : forall reply sched s s',
    in_order reply s -> run sched s = Some s' -> in_order reply s'.
Proof.
  intros reply. induction sched as [|l sched IH]; cbn [run]; intros s s' Hi Hr.
  - injection Hr as <-. exact Hi.
  - destruct (step l s) as [s1|] eqn:Hs; [|discriminate].
    eapply IH; [|exact Hr]. eapply in_order_step; eauto.
Qed.

(** Lines reach the consumer in the order the daemon wrote them: what was
    received is always a prefix of the published lines. *)
Lemma received_in_order : forall reply s,
    reachable reply s -> exists tail, published reply = received s ++ tail.
Proof.
  intros reply s [sched Hr].
  assert (Hi : in_order reply s).
  { eapply in_order_run; [|exact Hr]. reflexivity. }
  unfold in_order in Hi.
  destruct (reader s); eauto.
Qed.

End LifecycleFacts.
(** C1. In every execution order of the goroutines of a command, a state
    where the socket is closed is one where the reader's completion signal
    has fired and the reader can neither read nor publish; and every
    [conn.Close()] in the order comes after the reader's [wg.Done()]. *)
Theorem close_only_after_signal :
  forall (reply : string) (sched : list Lifecycle.label) (s : Lifecycle.state),
    Lifecycle.run sched (Lifecycle.init reply) = Some s ->
    (Lifecycle.conn_closed s = true ->
     Lifecycle.signal_fired s = true /\ Lifecycle.reader_active s = false)
    /\ (forall pre post, sched = pre ++ Lifecycle.LClose :: post ->
                         In Lifecycle.LWgDone pre).
Proof.
  intros reply sched s Hrun. split.
  - intros Hc.
    assert (Hi : Lifecycle.inv s) by (apply (inv_reachable reply); exists sched; exact Hrun).
    destruct Hi as (_ & _ & Hcl & _).
    unfold Lifecycle.signal_fired, Lifecycle.reader_active.
    destruct (Lifecycle.closer s); try congruence;
      try (destruct Hcl; congruence); rewrite Hcl; auto.
  - intros pre post ->. rewrite run_app in Hrun.
    destruct (Lifecycle.run pre (Lifecycle.init reply)) as [s1|] eqn:Hpre;
      [|discriminate].
    assert (Hi : Lifecycle.inv s1) by (eapply inv_run; [apply inv_init | exact Hpre]).
    simpl in Hrun.
    destruct (Lifecycle.closer s1) eqn:Hc; try discriminate.
    destruct Hi as (_ & _ & Hcl & _). rewrite Hc in Hcl. destruct Hcl as [_ He].
    eapply exited_needs_done; [exact Hpre | exact He | simpl; discriminate].
Qed.

Lemma close_only_after_signal_witness :
  exists s,
    Lifecycle.run pong_schedule (Lifecycle.init pong_reply) = Some s
    /\ Lifecycle.conn_closed s = true
    /\ Lifecycle.received s = ["PONG"]
    /\ ((Lifecycle.conn_closed s = true ->
         Lifecycle.signal_fired s = true /\ Lifecycle.reader_active s = false)
        /\ (forall pre post,
               pong_schedule = pre ++ Lifecycle.LClose :: post ->
               In Lifecycle.LWgDone pre)).
Proof.
  exists (Lifecycle.mkState 0 true true Lifecycle.MReturned Lifecycle.RExited
                            Lifecycle.CExited "" ["PONG"]).
  assert (H : Lifecycle.run pong_schedule (Lifecycle.init pong_reply) =
              Some (Lifecycle.mkState 0 true true Lifecycle.MReturned
                      Lifecycle.RExited Lifecycle.CExited "" ["PONG"]))
    by (vm_compute; reflexivity).
  split; [exact H|]. split; [reflexivity|]. split; [reflexivity|].
  apply (close_only_after_signal pong_reply pong_schedule). exact H.
Defined.

(** ** Bytes and framing *)

Lemma int_of_byte_of_int : forall x : Z,
    int_of_byte (byte_of_int x) = (x mod 256)%Z.
Proof.
  intros x. unfold int_of_byte, byte_of_int.
  assert (Hl : Z.land x 255 = (x mod 256)%Z).
  { change 255%Z with (Z.ones 8). rewrite Z.land_ones by lia. reflexivity. }
  rewrite Hl.
  assert (Hb : (0 <= x mod 256 < 256)%Z) by (apply Z.mod_pos_bound; lia).
  destruct (Byte.of_N (Z.to_N (x mod 256))) as [b|] eqn:E.
  - apply Byte.to_of_N in E. rewrite E. rewrite Z2N.id; lia.
  - apply Byte.of_N_None_iff in E. lia.
Qed.

Lemma be_uint32_length_prefix : forall n : Z,
    (0 <= n)%Z -> be_uint32 (length_prefix n) = Some (n mod 2 ^ 32)%Z.
Proof.
  intros n Hn. unfold length_prefix, be_uint32.
  rewrite !int_of_byte_of_int, !Z.shiftr_div_pow2 by lia.
  f_equal.
  change (2 ^ 24)%Z with 16777216%Z. change (2 ^ 16)%Z with 65536%Z.
  change (2 ^ 8)%Z with 256%Z. change (2 ^ 0)%Z with 1%Z.
  change (2 ^ 32)%Z with 4294967296%Z.
  Z.div_mod_to_equations. lia.
Qed.

Lemma list_byte_of_string_app : forall a b : string,
    list_byte_of_string (a ++ b) = list_byte_of_string a ++ list_byte_of_string b.
Proof.
  intros a b. unfold list_byte_of_string.
  induction a as [|c a IH]; simpl; [reflexivity|]. now rewrite IH.
Qed.

Lemma sendChunk_events : forall w conn data,
    events (fst (sendChunk w conn data)) =
    events w ++ [ EvWrite (length_prefix (len data)) (write_outcome w 0);
                  EvWrite data (write_outcome w 1) ].
Proof.
  intros w conn data. unfold sendChunk, Write, write_outcome. simpl.
  rewrite <- app_assoc. simpl.
  destruct (write_faults w) as [|r0 [|r1 fs]]; reflexivity.
Qed.

Lemma sendChunk_error : forall w conn data,
    snd (sendChunk w conn data) = write_outcome w 1.
Proof.
  intros w conn data. unfold sendChunk, Write, write_outcome. simpl.
  destruct (write_faults w) as [|r0 [|r1 fs]]; reflexivity.
Qed.

Lemma sendChunk_faults : forall w conn data,
    write_faults (fst (sendChunk w conn data)) = List.tl (List.tl (write_faults w)).
Proof. reflexivity. Qed.

(** C4, as the code has it. For a payload of [n] bytes with [n] below
    2^32, [sendChunk] hands the socket exactly [4 + n] bytes: four bytes
    that read as [n] in big-endian order, then the payload; [sendEOF]
    hands it the four zero bytes. *)
Theorem sendChunk_sendEOF_frames :
  forall (w : World) (conn : CLAMDConn) (data : list byte),
    (len data < 2 ^ 32)%Z ->
    (exists p r0 r1,
        events (fst (sendChunk w conn data)) =
          events w ++ [EvWrite p r0; EvWrite data r1]
        /\ List.length p = 4
        /\ be_uint32 p = Some (len data)
        /\ wire [EvWrite p r0; EvWrite data r1] = p ++ data
        /\ List.length (p ++ data) = 4 + List.length data)
    /\ (exists r,
           events (fst (sendEOF w conn)) =
             events w ++ [EvWrite [x00; x00; x00; x00] r]
           /\ wire [EvWrite [x00; x00; x00; x00] r] = [x00; x00; x00; x00]).
Proof.
  intros w conn data Hlen. split.
  - exists (length_prefix (len data)), (write_outcome w 0), (write_outcome w 1).
    split; [apply sendChunk_events|].
    split; [reflexivity|].
    split.
    + rewrite be_uint32_length_prefix by (unfold len; lia).
      f_equal. apply Z.mod_small. unfold len in *. lia.
    + split; [unfold wire; simpl; now rewrite app_nil_r | reflexivity].
  - exists (write_outcome w 0). split; reflexivity.
Qed.

Lemma sendChunk_sendEOF_frames_witness :
  (len EICAR < 2 ^ 32)%Z
  /\ exists p r0 r1,
      events (fst (sendChunk calm_world unix_conn EICAR)) =
        events calm_world ++ [EvWrite p r0; EvWrite EICAR r1]
      /\ be_uint32 p = Some 68%Z
      /\ List.length (p ++ EICAR) = 72.
Proof.
  assert (H : (len EICAR < 2 ^ 32)%Z) by (vm_compute; reflexivity).
  split; [exact H|].
  destruct (sendChunk_sendEOF_frames calm_world unix_conn EICAR H)
    as [(p & r0 & r1 & He & _ & Hb & _ & Hl) _].
  exists p, r0, r1. split; [exact He|]. split; [exact Hb | exact Hl].
Defined.

Lemma len_four_GiB : len four_GiB = (2 ^ 32)%Z.
Proof.
  unfold len, four_GiB. rewrite repeat_length.
  rewrite Z2Nat.id; [reflexivity | lia].
Qed.

Lemma length_prefix_of_2_32 : length_prefix (2 ^ 32) = [x00; x00; x00; x00].
Proof. vm_compute. reflexivity. Qed.

(** C4 as stated fails: for a payload of 2^32 bytes the four-byte prefix
    [sendChunk] writes is four zero bytes, which read as 0 and not as the
    length of the payload. *)
Lemma sendChunk_four_GiB_prefix_is_zero :
  len four_GiB = (2 ^ 32)%Z
  /\ events (fst (sendChunk calm_world unix_conn four_GiB)) =
       events calm_world
         ++ [ EvWrite [x00; x00; x00; x00] (write_outcome calm_world 0);
              EvWrite four_GiB (write_outcome calm_world 1) ]
  /\ be_uint32 [x00; x00; x00; x00] = Some 0%Z
  /\ be_uint32 [x00; x00; x00; x00] <> Some (len four_GiB).
Proof.
  split; [exact len_four_GiB|]. split; [|split].
  - rewrite sendChunk_events, len_four_GiB, length_prefix_of_2_32. reflexivity.
  - reflexivity.
  - rewrite len_four_GiB. intros H.
    change (be_uint32 [x00; x00; x00; x00]) with (Some 0%Z) in H.
    injection H as H. vm_compute in H. discriminate H.
Qed.

(** C7. [sendCommand] makes one [Write] call, with the byte [n] (the
    marker of newline-terminated mode), the bytes of the command and a line
    feed, and returns the error of that call: an error exactly when the
    write fails. *)
Theorem sendCommand_frame :
  forall (w : World) (conn : CLAMDConn) (command : string),
  exists r,
    events (fst (sendCommand w conn command)) =
      events w ++ [EvWrite (x6e :: list_byte_of_string command ++ [x0a]) r]
    /\ r = write_outcome w 0
    /\ snd (sendCommand w conn command) = r
    /\ (snd (sendCommand w conn command) <> None <-> write_outcome w 0 <> None).
Proof.
  intros w conn command. exists (write_outcome w 0).
  unfold sendCommand, Write. simpl.
  change (String "n" (command ++ String LF ""))%string
    with ("n" ++ (command ++ String LF ""))%string.
  rewrite !list_byte_of_string_app.
  repeat split; auto.
Qed.

(** C10. The error [sendChunk] returns is the outcome of the payload
    write and of nothing else: the call makes two writes, the four-byte
    prefix and then the payload, and returns what the second one gave,
    whatever the first one gave. So when the write of the prefix fails and
    the write of the payload succeeds, [sendChunk] returns no error,
    although the failed prefix write was made; and when the payload write
    fails, that error is returned. *)
Theorem sendChunk_ignores_prefix_error :
  forall (w : World) (conn : CLAMDConn) (data : list byte),
    snd (sendChunk w conn data) = write_outcome w 1
    /\ events (fst (sendChunk w conn data)) =
         events w ++ [ EvWrite (length_prefix (len data)) (write_outcome w 0);
                       EvWrite data (write_outcome w 1) ]
    /\ (forall e, write_outcome w 0 = Some e -> write_outcome w 1 = None ->
                  snd (sendChunk w conn data) = None
                  /\ In (EvWrite (length_prefix (len data)) (Some e))
                        (events (fst (sendChunk w conn data))))
    /\ (forall e, write_outcome w 1 = Some e ->
                  snd (sendChunk w conn data) = Some e).
Proof.
  intros w conn data.
  split; [apply sendChunk_error|]. split; [apply sendChunk_events|]. split.
  - intros e H0 H1. split.
    + rewrite sendChunk_error. exact H1.
    + rewrite sendChunk_events, H0. apply in_or_app. right. left. reflexivity.
  - intros e H1. rewrite sendChunk_error. exact H1.
Qed.

Lemma sendChunk_ignores_prefix_error_witness :
  (write_outcome (faulty_world [Some EPIPE; None]) 0 = Some EPIPE
   /\ write_outcome (faulty_world [Some EPIPE; None]) 1 = None
   /\ snd (sendChunk (faulty_world [Some EPIPE; None]) unix_conn EICAR) = None
   /\ In (EvWrite (length_prefix (len EICAR)) (Some EPIPE))
         (events (fst (sendChunk (faulty_world [Some EPIPE; None]) unix_conn EICAR))))
  /\ (write_outcome (faulty_world [None; Some EPIPE]) 1 = Some EPIPE
      /\ snd (sendChunk (faulty_world [None; Some EPIPE]) unix_conn EICAR)
         = Some EPIPE).
Proof.
  destruct (sendChunk_ignores_prefix_error
              (faulty_world [Some EPIPE; None]) unix_conn EICAR)
    as (_ & _ & H1 & _).
  destruct (sendChunk_ignores_prefix_error
              (faulty_world [None; Some EPIPE]) unix_conn EICAR)
    as (_ & _ & _ & H2).
  split.
  - split; [reflexivity|]. split; [reflexivity|].
    apply (H1 EPIPE); reflexivity.
  - split; [reflexivity|]. apply (H2 EPIPE). reflexivity.
Defined.

(** ** Ping *)

(** C2, as the code has it. [Ping] looks at the first value it receives and
    at nothing after it: it succeeds exactly when the sequence starts with
    [PONG]; a first line other than [PONG] gives the error whose message is
    [Invalid response, got <line>.], and so does an exhausted sequence,
    received as the empty line. *)
Theorem Ping_first_line :
  forall ch : chan,
    (Ping_select ch = None <-> exists rest, ch = "PONG" :: rest)
    /\ (forall s rest, ch = s :: rest -> s <> "PONG" ->
        exists e, Ping_select ch = Some e
                  /\ Error e = ("Invalid response, got " ++ s ++ ".")%string)
    /\ (ch = [] ->
        Ping_select ch = Some (errors_New "Invalid response, got .")).
Proof.
  intros ch. split; [|split].
  - unfold Ping_select. destruct ch as [|s rest]; simpl.
    + split; [discriminate | intros [rest H]; discriminate].
    + destruct (String.eqb_spec s "PONG") as [->|Hn].
      * split; [intros _; now exists rest | reflexivity].
      * split; [discriminate | intros [r H]; congruence].
  - intros s rest -> Hn. unfold Ping_select. simpl.
    destruct (String.eqb_spec s "PONG") as [->|_]; [contradiction|].
    eexists. split; reflexivity.
  - intros ->. reflexivity.
Qed.

Lemma Ping_first_line_witness :
  Ping_select ["PONG"; "PONG"] = None
  /\ exists e, Ping_select ["PANG"] = Some e
               /\ Error e = "Invalid response, got PANG.".
Proof.
  destruct (Ping_first_line ["PONG"; "PONG"]) as [[_ H1] _].
  destruct (Ping_first_line ["PANG"]) as [_ [H2 _]].
  split.
  - apply H1. now exists ["PONG"].
  - apply (H2 "PANG" []); [reflexivity | discriminate].
Defined.

(** C2 as stated fails: on a sequence of two lines, both [PONG], [Ping]
    succeeds, yet the sequence does not yield exactly one line, nor exactly
    one line equal to [PONG]. *)
Lemma Ping_succeeds_on_two_lines :
  Ping_select ["PONG"; "PONG"] = None
  /\ ~ spec_yields_exactly "PONG" ["PONG"; "PONG"]
  /\ spec_count "PONG" ["PONG"; "PONG"] <> 1.
Proof.
  split; [reflexivity|]. split.
  - unfold spec_yields_exactly. discriminate.
  - vm_compute. discriminate.
Qed.

(** [Ping] on a world: once the dial and the command write go well, its
    result is [Ping_select] on the lines the reader publishes. *)
Lemma Ping_world : forall w c,
    dial_fault w "unix" (address c) = None ->
    write_outcome w 0 = None ->
    snd (Ping w c) =
    Some (Ping_select
            (published (daemon_reply w))).
Proof.
  intros w c Hd Hw.
  unfold Ping, simpleCommand, newCLAMDUnixConn, net_Dial, sendCommand, Write,
    readResponse, log. simpl. rewrite Hd. simpl.
  unfold write_outcome in *. simpl. rewrite Hw. reflexivity.
Qed.

(** ** Stats *)

(** C3, as the code has it. A line is classified by the first of the
    prefixes POOLS, STATE, THREADS, QUEUE, MEMSTATS, END it starts with.
    For POOLS, on a line of at least six bytes, the text from byte 6 on
    (after the prefix and the byte that follows it) is stored with
    surrounding spaces trimmed; for the next four the whole line is stored;
    an END line and a line with none of the prefixes change nothing. The
    example reply gives the example record. *)
Theorem Stats_classification :
  forall (stats : Stats) (s : string),
    (HasPrefix s "POOLS" = true -> 6 <= String.length s ->
     Stats_line stats s =
       Some (mkStats (Trim (String.substring 6 (String.length s - 6) s) " ")
                     (State stats) (Threads stats) (Memstats stats) (Queue stats)))
    /\ (HasPrefix s "POOLS" = false -> HasPrefix s "STATE" = true ->
        Stats_line stats s =
          Some (mkStats (Pools stats) s (Threads stats) (Memstats stats) (Queue stats)))
    /\ (HasPrefix s "POOLS" = false -> HasPrefix s "STATE" = false ->
        HasPrefix s "THREADS" = true ->
        Stats_line stats s =
          Some (mkStats (Pools stats) (State stats) s (Memstats stats) (Queue stats)))
    /\ (HasPrefix s "POOLS" = false -> HasPrefix s "STATE" = false ->
        HasPrefix s "THREADS" = false -> HasPrefix s "QUEUE" = true ->
        Stats_line stats s =
          Some (mkStats (Pools stats) (State stats) (Threads stats) (Memstats stats) s))
    /\ (HasPrefix s "POOLS" = false -> HasPrefix s "STATE" = false ->
        HasPrefix s "THREADS" = false -> HasPrefix s "QUEUE" = false ->
        HasPrefix s "MEMSTATS" = true ->
        Stats_line stats s =
          Some (mkStats (Pools stats) (State stats) (Threads stats) s (Queue stats)))
    /\ (HasPrefix s "POOLS" = false -> HasPrefix s "STATE" = false ->
        HasPrefix s "THREADS" = false -> HasPrefix s "QUEUE" = false ->
        HasPrefix s "MEMSTATS" = false ->
        Stats_line stats s = Some stats)
    /\ Stats_range stats_lines (mkStats "" "" "" "" "") =
         Some (mkStats "2" "STATE VALID" "THREADS live 2" "MEMSTATS heap 10M" "QUEUE 0")
    /\ snd (Stats_cmd (replying_world (unlines stats_lines)) (NewClamd "/tmp/clamd.sock")) =
         Some (Ok (mkStats "2" "STATE VALID" "THREADS live 2" "MEMSTATS heap 10M" "QUEUE 0")).
Proof.
  intros stats s. unfold Stats_line.
  repeat split.
  - intros Hp Hl. rewrite Hp. unfold slice_from.
    apply Nat.leb_le in Hl. rewrite Hl. reflexivity.
  - intros -> ->. reflexivity.
  - intros -> -> ->. reflexivity.
  - intros -> -> -> ->. reflexivity.
  - intros -> -> -> -> ->. reflexivity.
  - intros -> -> -> -> ->. destruct (HasPrefix s "END"); reflexivity.
Qed.

Lemma Stats_classification_witness :
  Stats_line (mkStats "" "" "" "" "") "POOLS: 1" = Some (mkStats "1" "" "" "" "")
  /\ Stats_line (mkStats "1" "" "" "" "") "QUEUE: 0 items" =
       Some (mkStats "1" "" "" "" "QUEUE: 0 items").
Proof.
  destruct (Stats_classification (mkStats "" "" "" "" "") "POOLS: 1")
    as (H1 & _).
  destruct (Stats_classification (mkStats "1" "" "" "" "") "QUEUE: 0 items")
    as (_ & _ & _ & H4 & _).
  split.
  - apply H1; [reflexivity | simpl; lia].
  - apply H4; reflexivity.
Defined.

(** C3 as stated fails: on the line [POOLS: 1] the text after the prefix,
    spaces trimmed, is [: 1], and the code stores [1]. *)
Lemma Stats_POOLS_skips_six_bytes :
  Stats_line (mkStats "" "" "" "" "") "POOLS: 1" = Some (mkStats "1" "" "" "" "")
  /\ spec_Stats_line (mkStats "" "" "" "" "") "POOLS: 1" = mkStats ": 1" "" "" "" ""
  /\ Stats_line (mkStats "" "" "" "" "") "POOLS: 1"
     <> Some (spec_Stats_line (mkStats "" "" "" "" "") "POOLS: 1").
Proof.
  split; [reflexivity|]. split; [reflexivity|]. vm_compute. discriminate.
Qed.

(** C9 fails on the code: the line [POOLS] starts with the prefix and has
    five bytes, so [s[6:]] is out of range and the loop panics; the daemon
    line [POOLS] followed by a space, trimmed by the reader, does it. *)
Theorem Stats_POOLS_alone_panics :
  (forall stats, Stats_line stats "POOLS" = None)
  /\ Stats_range ["POOLS"] (mkStats "" "" "" "" "") = None
  /\ snd (Stats_cmd (replying_world (unlines ["POOLS "])) (NewClamd "/tmp/clamd.sock"))
     = None.
Proof.
  split; [reflexivity|]. split; reflexivity.
Qed.

(** ** ScanStream *)

Section SourceFacts.

Variable Src : Type.
Variable Read : Src -> nat -> list byte * option error * Src.

Lemma first_stop_S : forall k r,
    first_stop Src Read (S k) r ->
    stops (fst (Read r CHUNK_SIZE)) = false
    /\ first_stop Src Read k (snd (Read r CHUNK_SIZE)).
Proof.
  intros k r [Hs Hb]. split.
  - apply (Hb 0). lia.
  - split; [exact Hs|]. intros j Hj. apply (Hb (S j)). lia.
Qed.

(** The loop, once the source stops at call [k]: [k] reads are forwarded,
    two writes each, and the stopping read is the last event. *)
Lemma upload_events : forall k fuel w conn r,
    k < fuel -> first_stop Src Read k r ->
    exists w',
      upload Src Read fuel w conn r = Some (w', reader_after Src Read (S k) r)
      /\ events w' =
           events w ++ forwarded Src Read k (write_faults w) r
                  ++ [EvSourceRead CHUNK_SIZE (fst (read_at Src Read k r))
                                   (snd (read_at Src Read k r))]
      /\ write_faults w' = List.skipn (2 * k) (write_faults w)
      /\ dial_fault w' = dial_fault w
      /\ daemon_reply w' = daemon_reply w.
Proof.
  induction k as [|k IH]; intros fuel w conn r Hf Hs.
  - destruct fuel as [|fuel]; [lia|].
    destruct Hs as [Hs _]. unfold read_at, stops in Hs.
    cbn [reader_after] in Hs.
    unfold read_at. cbn [upload reader_after forwarded].
    destruct (Read r CHUNK_SIZE) as [[data err] r'] eqn:E.
    cbn [fst snd] in *.
    destruct err as [e|].
    + eexists. split; [reflexivity|]. repeat split.
    + rewrite Hs. eexists. split; [reflexivity|]. repeat split.
  - destruct fuel as [|fuel]; [lia|].
    apply first_stop_S in Hs. destruct Hs as [Hn Hs].
    unfold stops in Hn. cbn [upload].
    destruct (Read r CHUNK_SIZE) as [[data err] r'] eqn:E.
    cbn [fst snd] in Hn, Hs.
    destruct err as [e|]; [discriminate|]. rewrite Hn.
    set (w0 := log w (EvSourceRead CHUNK_SIZE data None)).
    destruct (sendChunk w0 conn data) as [w1 e1] eqn:Ec.
    assert (Hev : events w1 = events w0 ++
                   [EvWrite (length_prefix (len data)) (write_outcome w0 0);
                    EvWrite data (write_outcome w0 1)]).
    { change w1 with (fst (w1, e1)). rewrite <- Ec. apply sendChunk_events. }
    assert (Hfa : write_faults w1 = List.tl (List.tl (write_faults w))).
    { change w1 with (fst (w1, e1)). rewrite <- Ec. reflexivity. }
    assert (Hdi : dial_fault w1 = dial_fault w /\ daemon_reply w1 = daemon_reply w).
    { change w1 with (fst (w1, e1)). rewrite <- Ec. split; reflexivity. }
    destruct (IH fuel w1 conn r' ltac:(lia) Hs) as (w' & Hu & He & Hfw & Hd & Hr).
    exists w'. split; [|split; [|split; [|split]]].
    + rewrite Hu. cbn [reader_after]. rewrite E. reflexivity.
    + rewrite He, Hev, Hfa. unfold read_at. cbn [reader_after forwarded].
      rewrite E. cbn [snd]. unfold w0, log, write_outcome. cbn [events write_faults].
      rewrite <- !app_assoc. reflexivity.
    + rewrite Hfw, Hfa.
      replace (2 * S k) with (S (S (2 * k))) by lia.
      destruct (write_faults w) as [|f0 [|f1 fs]]; cbn [List.tl skipn];
        rewrite ?skipn_nil; reflexivity.
    + destruct Hdi. congruence.
    + destruct Hdi. congruence.
Qed.

Lemma nth_tl_tl : forall (A : Type) (l : list A) (d : A) (n : nat),
    List.nth n (List.tl (List.tl l)) d = List.nth (S (S n)) l d.
Proof.
  intros A l d n. destruct l as [|a [|b l]]; simpl; try reflexivity;
    destruct n; reflexivity.
Qed.

Lemma flat_map_seq_S : forall (A : Type) (f : nat -> list A) (k : nat),
    List.flat_map f (List.seq 1 k) =
    List.flat_map (fun j => f (S j)) (List.seq 0 k).
Proof.
  intros A f k. rewrite <- seq_shift.
  rewrite !flat_map_concat_map, map_map. reflexivity.
Qed.

Lemma forwarded_chunks : forall k faults r,
    forwarded Src Read k faults r =
    List.flat_map (chunk_events Src Read faults r) (List.seq 0 k).
Proof.
  induction k as [|k IH]; intros faults r; [reflexivity|].
  cbn [forwarded].
  destruct (Read r CHUNK_SIZE) as [[data err] r'] eqn:E.
  rewrite IH.
  change (List.seq 0 (S k)) with (0 :: List.seq 1 k).
  cbn [List.flat_map]. rewrite flat_map_seq_S.
  unfold chunk_events at 2. unfold read_at. cbn [reader_after].
  rewrite E. cbn [fst app]. do 3 f_equal.
  apply flat_map_ext. intros j.
  unfold chunk_events, read_at. cbn [reader_after]. rewrite E. cbn [snd].
  rewrite !nth_tl_tl.
  replace (2 * S j) with (S (S (2 * j))) by lia.
  replace (S (S (2 * j)) + 1) with (S (S (2 * j + 1))) by lia.
  reflexivity.
Qed.

(** [ScanStream] on a reachable daemon and a source that stops at call
    [k]: it returns once [fuel] exceeds [k]; what it did is
    [ScanStream_events]; its result is the channel, or the error of the
    terminator write and of no other write. *)
Lemma ScanStream_run : forall k fuel w c r,
    k < fuel -> first_stop Src Read k r ->
    dial_fault w "unix" (address c) = None ->
    exists w',
      ScanStream Src Read fuel w c r =
        Some (w',
              match List.nth (2 * k + 1) (write_faults w) None with
              | Some e => Some (Err e)
              | None =>
                  Some (Ok (published (daemon_reply w)))
              end)
      /\ events w' = events w ++ ScanStream_events Src Read w c r k.
Proof.
  intros k fuel w c r Hf Hs Hd.
  unfold ScanStream, newConnection, newCLAMDUnixConn, net_Dial. rewrite Hd.
  cbn iota beta.
  set (w0 := log w (EvDial "unix" (address c) None)).
  set (conn := mkCLAMDConn "unix" (address c)).
  destruct (sendCommand w0 conn "INSTREAM") as [w1 e1] eqn:Ec.
  assert (H1 : events w1 =
               events w ++ [EvDial "unix" (address c) None;
                            EvWrite (list_byte_of_string ("nINSTREAM" ++ String LF ""))
                                    (List.nth 0 (write_faults w) None)]
               /\ write_faults w1 = List.tl (write_faults w)
               /\ daemon_reply w1 = daemon_reply w).
  { change w1 with (fst (w1, e1)). rewrite <- Ec.
    unfold sendCommand, Write, write_outcome, w0, log. simpl.
    rewrite <- app_assoc. repeat split. }
  destruct H1 as (Hev1 & Hfa1 & Hre1).
  destruct (upload_events k fuel w1 conn r Hf Hs) as (w2 & Hu & Hev2 & Hfa2 & _ & Hre2).
  rewrite Hu.
  assert (Hnth : write_outcome w2 0 = List.nth (2 * k + 1) (write_faults w) None).
  { unfold write_outcome. rewrite Hfa2, Hfa1.
    rewrite nth_skipn. rewrite Nat.add_0_r.
    destruct (write_faults w) as [|f fs]; simpl.
    - destruct (k + (k + 0)); reflexivity.
    - replace (k + (k + 0) + 1) with (S (k + (k + 0))) by lia. reflexivity. }
  unfold sendEOF, Write. cbn iota beta. rewrite Hnth.
  unfold ScanStream_events.
  destruct (List.nth (2 * k + 1) (write_faults w) None) as [e|] eqn:En.
  - eexists. split; [reflexivity|]. cbn [events].
    rewrite Hev2, Hev1, Hfa1, forwarded_chunks.
    rewrite <- !app_assoc. reflexivity.
  - unfold readResponse, log. cbn iota beta.
    eexists. split.
    + cbn [daemon_reply]. rewrite Hre2, Hre1. reflexivity.
    + cbn [events]. rewrite Hev2, Hev1, Hfa1, forwarded_chunks.
      rewrite <- !app_assoc. reflexivity.
Qed.

End SourceFacts.

(** ** Which transport is dialed *)










(** ** The upload *)

Lemma script_Read_contract : forall (s : script_Reader) (n : nat),
    List.length (fst (fst (script_Read s n))) <= n.
Proof.
  intros [|[data err] rest] n; cbn; [lia | apply firstn_le_length].
Qed.

Lemma stalling_source_stops :
  first_stop script_Reader script_Read 1 stalling_source.
Proof.
  split; [reflexivity|]. intros j Hj.
  destruct j as [|j]; [reflexivity | lia].
Qed.




(** C5 fails on the code. With the payload write of the first chunk
    failing, [ScanStream] reads on, forwards the next chunk and writes the
    terminator: when the later writes go well it returns the channel and no
    error; when the socket stays broken it still attempts every later
    write, the terminator included, and the error it returns is the one of
    the terminator write. *)
Theorem ScanStream_ignores_chunk_write_error :
  (exists w',
      ScanStream script_Reader script_Read 3
        (faulty_world [None; None; Some EPIPE]) unix_clamd two_chunks
      = Some (w', Some (Ok ["PONG"]))
      /\ events w' =
           [ EvDial "unix" "/var/run/clamav/clamd.ctl" None;
             EvWrite instream_frame None;
             EvSourceRead 1024 EICAR None;
             EvWrite [x00; x00; x00; x44] None;
             EvWrite EICAR (Some EPIPE);
             EvSourceRead 1024 EICAR None;
             EvWrite [x00; x00; x00; x44] None;
             EvWrite EICAR None;
             EvSourceRead 1024 [] (Some io_EOF);
             EvWrite [x00; x00; x00; x00] None;
             EvReadResponse ])
  /\ (exists w',
         ScanStream script_Reader script_Read 3
           (faulty_world [None; None; Some EPIPE; Some EPIPE; Some EPIPE;
                          Some (OpError "write" 104)])
           unix_clamd two_chunks
         = Some (w', Some (Err (OpError "write" 104)))
         /\ events w' =
              [ EvDial "unix" "/var/run/clamav/clamd.ctl" None;
                EvWrite instream_frame None;
                EvSourceRead 1024 EICAR None;
                EvWrite [x00; x00; x00; x44] None;
                EvWrite EICAR (Some EPIPE);
                EvSourceRead 1024 EICAR None;
                EvWrite [x00; x00; x00; x44] (Some EPIPE);
                EvWrite EICAR (Some EPIPE);
                EvSourceRead 1024 [] (Some io_EOF);
                EvWrite [x00; x00; x00; x00] (Some (OpError "write" 104)) ]).
Proof.
  split; eexists; split; vm_compute; reflexivity.
Qed.

(** * Further properties *)

(** ** The reader: from bytes to lines *)

Lemma count_char_app : forall c a b,
    count_char c (a ++ b)%string = count_char c a + count_char c b.
Proof.
  intros c a b. induction a as [|d a IH]; cbn [append count_char];
    [reflexivity | lia].
Qed.

Lemma ReadString_line : forall body rest,
    count_char LF body = 0 ->
    ReadString (body ++ String LF rest) = ((body ++ String LF "")%string, None, rest).
Proof.
  induction body as [|c body IH]; intros rest H; cbn [append ReadString].
  - rewrite Ascii.eqb_refl. reflexivity.
  - cbn [count_char] in H. destruct (Ascii.eqb c LF); [discriminate|].
    rewrite IH by exact H. reflexivity.
Qed.

Lemma ReadString_end : forall buf,
    count_char LF buf = 0 -> ReadString buf = (buf, Some io_EOF, EmptyString).
Proof.
  induction buf as [|c buf IH]; intros H; cbn [ReadString]; [reflexivity|].
  cbn [count_char] in H. destruct (Ascii.eqb c LF); [discriminate|].
  rewrite IH by exact H. reflexivity.
Qed.

(** A text either has no line feed or splits at its first one. *)
Lemma first_LF : forall buf,
    count_char LF buf = 0
    \/ exists body rest,
        buf = (body ++ String LF rest)%string /\ count_char LF body = 0.
Proof.
  induction buf as [|c buf IH]; [left; reflexivity|].
  destruct (Ascii.eqb_spec c LF) as [->|Hn].
  - right. exists EmptyString, buf. split; reflexivity.
  - destruct IH as [H0|(body & rest & -> & Hb)].
    + left. cbn [count_char]. apply Ascii.eqb_neq in Hn. rewrite Hn. exact H0.
    + right. exists (String c body), rest. split; [reflexivity|].
      cbn [count_char]. apply Ascii.eqb_neq in Hn. rewrite Hn. exact Hb.
Qed.

Lemma length_append : forall a b,
    String.length (a ++ b) = String.length a + String.length b.
Proof.
  intros a b. induction a as [|c a IH]; cbn [append String.length];
    [reflexivity | lia].
Qed.

Lemma append_assoc : forall a b c : string,
    ((a ++ b) ++ c = a ++ (b ++ c))%string.
Proof.
  intros a b c. induction a as [|d a IH]; cbn [append]; [reflexivity|].
  now rewrite IH.
Qed.

Lemma published_line : forall body rest,
    count_char LF body = 0 ->
    published (body ++ String LF rest) =
    TrimRight (body ++ String LF "") whitespace :: published rest.
Proof.
  intros body rest H. rewrite published_eq, ReadString_line by exact H.
  reflexivity.
Qed.

Lemma published_end : forall buf, count_char LF buf = 0 -> published buf = [].
Proof.
  intros buf H. rewrite published_eq, ReadString_end by exact H. reflexivity.
Qed.

(** Trimming drops a trailing character of the cutset. *)
Lemma TrimRight_snoc : forall s c cutset,
    in_cutset c cutset = true ->
    TrimRight (s ++ String c "") cutset = TrimRight s cutset.
Proof.
  induction s as [|d s IH]; intros c cutset H; cbn [append TrimRight].
  - rewrite H. reflexivity.
  - rewrite IH by exact H. reflexivity.
Qed.

Lemma TrimRight_count : forall s c cutset,
    count_char c (TrimRight s cutset) <= count_char c s.
Proof.
  induction s as [|d s IH]; intros c cutset; cbn [TrimRight count_char]; [lia|].
  specialize (IH c cutset).
  destruct (TrimRight s cutset) as [|e t] eqn:E.
  - destruct (in_cutset d cutset); cbn [count_char]; lia.
  - cbn [count_char] in *. lia.
Qed.

Lemma TrimRight_last : forall s cutset,
    match last_char (TrimRight s cutset) with
    | Some c => in_cutset c cutset = false
    | None => True
    end.
Proof.
  induction s as [|d s IH]; intros cutset; cbn [TrimRight]; [exact I|].
  specialize (IH cutset).
  destruct (TrimRight s cutset) as [|e t] eqn:E.
  - destruct (in_cutset d cutset) eqn:Hd; cbn; [exact I | exact Hd].
  - exact IH.
Qed.

Lemma TrimRight_clean : forall body,
    count_char LF body = 0 ->
    clean_line (TrimRight (body ++ String LF "") whitespace).
Proof.
  intros body H. rewrite TrimRight_snoc by reflexivity. split.
  - pose proof (TrimRight_count body LF whitespace). lia.
  - apply TrimRight_last.
Qed.

Lemma TrimRight_id : forall l cutset,
    match last_char l with
    | Some c => in_cutset c cutset = false
    | None => True
    end ->
    TrimRight l cutset = l.
Proof.
  induction l as [|d l IH]; intros cutset H; cbn [TrimRight]; [reflexivity|].
  destruct l as [|e t].
  - cbn in *. rewrite H. reflexivity.
  - rewrite IH by exact H. reflexivity.
Qed.

(** X1. The reader publishes one line for each line feed of the reply, no
    more and no fewer. *)
Theorem published_one_line_per_LF :
  forall reply : string,
    List.length (published reply) = count_char LF reply.
Proof.
  intros reply.
  remember (String.length reply) as n eqn:Hn.
  assert (Hle : String.length reply <= n) by lia. clear Hn.
  revert reply Hle. induction n as [|n IH]; intros reply Hle.
  - destruct reply; [reflexivity | cbn in Hle; lia].
  - destruct (first_LF reply) as [H0|(body & rest & -> & Hb)].
    + rewrite published_end by exact H0. now rewrite H0.
    + rewrite published_line by exact Hb.
      rewrite count_char_app, Hb. cbn [List.length count_char].
      rewrite Ascii.eqb_refl. rewrite IH; [lia|].
      rewrite length_append in Hle. cbn in Hle. lia.
Qed.

(** X2. Every line the reader publishes is free of line feeds and does not
    end in a space, a tab, a carriage return or a line feed. *)
Theorem published_lines_are_clean :
  forall (reply l : string),
    In l (published reply) -> clean_line l.
Proof.
  intros reply.
  remember (String.length reply) as n eqn:Hn.
  assert (Hle : String.length reply <= n) by lia. clear Hn.
  revert reply Hle. induction n as [|n IH]; intros reply Hle l Hin.
  - destruct reply; [contradiction | cbn in Hle; lia].
  - destruct (first_LF reply) as [H0|(body & rest & -> & Hb)].
    + rewrite published_end in Hin by exact H0. contradiction.
    + rewrite published_line in Hin by exact Hb.
      destruct Hin as [<-|Hin]; [apply TrimRight_clean; exact Hb|].
      apply (IH rest); [|exact Hin].
      rewrite length_append in Hle. cbn in Hle. lia.
Qed.

Lemma published_lines_are_clean_witness :
  In "PONG" (published ("PONG " ++ String CR (String LF "")))
  /\ clean_line "PONG".
Proof.
  assert (H : In "PONG" (published ("PONG " ++ String CR (String LF ""))))
    by (vm_compute; left; reflexivity).
  split; [exact H|].
  exact (published_lines_are_clean _ _ H).
Defined.

(** X3. Bytes after the last line feed are never published: a reply that
    ends without a line feed gives the same lines as the reply cut after
    its last line feed, and a reply without any line feed gives none. *)
Theorem published_drops_unterminated_tail :
  forall (buf tail : string),
    count_char LF tail = 0 ->
    published (buf ++ String LF tail) = published (buf ++ String LF "")
    /\ published tail = [].
Proof.
  intros buf tail Ht. split; [|apply published_end; exact Ht].
  remember (String.length buf) as n eqn:Hn.
  assert (Hle : String.length buf <= n) by lia. clear Hn.
  revert buf Hle. induction n as [|n IH]; intros buf Hle.
  - destruct buf; [|cbn in Hle; lia].
    rewrite (published_line "" tail), (published_line "" "") by reflexivity.
    rewrite (published_end tail) by exact Ht. reflexivity.
  - destruct (first_LF buf) as [H0|(body & rest & -> & Hb)].
    + rewrite (published_line buf tail), (published_line buf "") by exact H0.
      rewrite (published_end tail) by exact Ht. reflexivity.
    + rewrite !append_assoc. cbn [append].
      rewrite (published_line body (rest ++ String LF tail)) by exact Hb.
      rewrite (published_line body (rest ++ String LF "")) by exact Hb.
      f_equal.
      apply IH. rewrite length_append in Hle. cbn in Hle. lia.
Qed.

Lemma published_drops_unterminated_tail_witness :
  published ("stream: OK" ++ String LF "stream: Eicar FOUND") = ["stream: OK"]
  /\ published "stream: Eicar FOUND" = [].
Proof.
  destruct (published_drops_unterminated_tail "stream: OK" "stream: Eicar FOUND"
              eq_refl) as [H1 H2].
  split; [rewrite H1; vm_compute; reflexivity | exact H2].
Defined.

(** X4. Reading undoes the daemon's line writing: lines without a line
    feed, each sent followed by a line feed, are published in the same
    order with their trailing whitespace trimmed, and unchanged when they
    have none. *)
Theorem published_unlines :
  forall ls : list string,
    (forall l, In l ls -> count_char LF l = 0) ->
    published (unlines ls) = List.map (fun l => TrimRight l whitespace) ls
    /\ ((forall l, In l ls -> clean_line l) -> published (unlines ls) = ls).
Proof.
  intros ls Hls.
  assert (H1 : published (unlines ls) =
               List.map (fun l => TrimRight l whitespace) ls).
  { induction ls as [|l ls IH]; [reflexivity|].
    cbn [unlines List.map].
    rewrite published_line by (apply Hls; now left).
    rewrite TrimRight_snoc by reflexivity. f_equal.
    apply IH. intros l' Hl'. apply Hls. now right. }
  split; [exact H1|].
  intros Hc. rewrite H1. clear H1.
  induction ls as [|l ls IH]; [reflexivity|].
  cbn [List.map]. f_equal.
  - apply TrimRight_id. apply (Hc l). now left.
  - apply IH; intros l' Hl'; [apply Hls | apply Hc]; now right.
Qed.

Lemma published_unlines_witness :
  published (unlines stats_lines) = stats_lines.
Proof.
  assert (H0 : forall l, In l stats_lines -> count_char LF l = 0).
  { intros l Hl. cbn in Hl.
    repeat (destruct Hl as [<-|Hl]; [reflexivity|]). contradiction. }
  assert (Hc : forall l, In l stats_lines -> clean_line l).
  { intros l Hl. cbn in Hl.
    repeat (destruct Hl as [<-|Hl]; [split; reflexivity|]). contradiction. }
  exact (proj2 (published_unlines stats_lines H0) Hc).
Defined.

(** ** The goroutines: order, completion, release *)

Section LifecycleMore.
Import Lifecycle.

Ltac step_inv :=
  repeat match goal with
    | H : Some _ = Some _ |- _ => injection H as <-
    | H : None = Some _ |- _ => discriminate H
    | H : context [match ?x with _ => _ end] |- _ =>
        let E := fresh "E" in destruct x eqn:E
    end.

Lemma ReadString_count : forall buf line rest,
    ReadString buf = (line, None, rest) ->
    count_char LF buf = S (count_char LF rest).
Proof.
  intros buf line rest H.
  destruct (first_LF buf) as [H0|(body & rest' & -> & Hb)].
  - rewrite ReadString_end in H by exact H0. discriminate.
  - rewrite ReadString_line in H by exact Hb. injection H as _ <-.
    rewrite count_char_app, Hb. cbn [count_char]. rewrite Ascii.eqb_refl. lia.
Qed.

Lemma steps_left_step : forall l s s',
    step l s = Some s' -> S (steps_left s') <= steps_left s.
Proof.
  intros l s s' Hs.
  destruct l; unfold step in Hs; step_inv; unfold steps_left;
    cbn [main reader closer stream];
    repeat match goal with
      | H : main _ = _ |- _ => rewrite H
      | H : reader _ = _ |- _ => rewrite H
      | H : closer _ = _ |- _ => rewrite H
      end;
    try (destruct (main s)); try (destruct (reader s));
    try (destruct (closer s)); try lia.
  all: match goal with
       | H : ReadString _ = _ |- _ => apply ReadString_count in H; lia
       end.
Qed.

Lemma steps_left_run : forall sched s s',
    run sched s = Some s' -> List.length sched + steps_left s' <= steps_left s.
Proof.
  induction sched as [|l sched IH]; cbn [run List.length]; intros s s' Hr.
  - injection Hr as <-. lia.
  - destruct (step l s) as [s1|] eqn:Hs; [|discriminate].
    apply steps_left_step in Hs. apply IH in Hr. lia.
Qed.

(** The closer, once done, has closed the socket. *)
Lemma closer_exited_closed : forall sched s s',
    (closer s = CExited -> conn_closed s = true) ->
    run sched s = Some s' ->
    closer s' = CExited -> conn_closed s' = true.
Proof.
  induction sched as [|l sched IH]; cbn [run]; intros s s' H0 Hr.
  - injection Hr as <-. exact H0.
  - destruct (step l s) as [s1|] eqn:Hs; [|discriminate].
    eapply IH; [|exact Hr].
    destruct l; unfold step in Hs; step_inv; cbn [closer conn_closed];
      try exact H0; try discriminate; try reflexivity.
    all: intros Hc; try congruence.
Qed.

Lemma reader_stays_sending : forall sched s s' line,
    reader s = RSend line ->
    run sched s = Some s' ->
    List.forallb (fun l => negb (is_send l)) sched = true ->
    reader s' = RSend line.
Proof.
  induction sched as [|l sched IH]; cbn [run List.forallb]; intros s s' line Hr Hrun Hn.
  - injection Hrun as <-. exact Hr.
  - destruct (step l s) as [s1|] eqn:Hs; [|discriminate].
    apply andb_prop in Hn. destruct Hn as [Hl Hn].
    eapply IH; [|exact Hrun|exact Hn].
    destruct l; try discriminate Hl; unfold step in Hs; rewrite ?Hr in Hs;
      step_inv; cbn [reader]; congruence.
Qed.

Lemma close_count : forall sched s s',
    run sched s = Some s' ->
    List.length (List.filter is_close sched)
    <= match closer s with CExited => 0 | _ => 1 end.
Proof.
  induction sched as [|l sched IH]; cbn [run List.filter]; intros s s' Hr.
  - cbn. destruct (closer s); lia.
  - destruct (step l s) as [s1|] eqn:Hs; [|discriminate].
    revert Hr. generalize (IH s1 s'). clear IH.
    destruct l; cbn [is_close List.length]; unfold step in Hs; step_inv;
      cbn [closer]; intros IH Hr; specialize (IH Hr);
      repeat match goal with
        | H : closer _ = _ |- _ => rewrite H in *
        end;
      cbn [List.length] in *; try lia; destruct (closer s); lia.
Qed.

Lemma drain_run : forall n buf w0 chc cc m c recvd,
    count_char LF buf = n ->
    exists tail,
      run (List.concat (List.repeat [LReadLine; LSend] n))
          (mkState w0 chc cc m RRead c buf recvd)
      = Some (mkState w0 chc cc m RRead c tail (recvd ++ published buf))
      /\ count_char LF tail = 0.
Proof.
  induction n as [|n IH]; intros buf w0 chc cc m c recvd Hn.
  - exists buf. rewrite published_end by exact Hn. rewrite app_nil_r.
    split; [reflexivity | exact Hn].
  - destruct (first_LF buf) as [H0|(body & rest & -> & Hb)]; [congruence|].
    assert (Hrest : count_char LF rest = n).
    { rewrite count_char_app, Hb in Hn. cbn [count_char] in Hn.
      rewrite Ascii.eqb_refl in Hn. lia. }
    destruct (IH rest w0 chc cc m c
                 (recvd ++ [TrimRight (body ++ String LF "") whitespace]) Hrest)
      as (tail & Hrun & Ht).
    exists tail. split; [|exact Ht].
    cbn [List.repeat List.concat app run].
    unfold step at 1. cbn [reader stream].
    rewrite ReadString_line by exact Hb.
    cbn [wg ch_closed conn_closed main closer received].
    unfold step at 1. cbn [reader wg ch_closed conn_closed main closer stream received].
    change (TrimRight (body ++ String LF "") cutset)
      with (TrimRight (body ++ String LF "") whitespace).
    rewrite Hrun, published_line by exact Hb.
    rewrite <- app_assoc. reflexivity.
Qed.

(** X5. In every interleaving the consumer has received, in the daemon's
    order, a prefix of the lines of the reply; and when the reader is at a
    read with no line feed left in the stream, it has received them all. *)
Theorem lines_arrive_in_order :
  forall (reply : string) (sched : list label) (s : state),
    run sched (init reply) = Some s ->
    (exists tail, published reply = received s ++ tail)
    /\ (reader s = RRead -> count_char LF (stream s) = 0 ->
        received s = published reply).
Proof.
  intros reply sched s Hr.
  assert (Hi : in_order reply s).
  { eapply in_order_run; [|exact Hr]. reflexivity. }
  unfold in_order in Hi. split.
  - destruct (reader s); eauto.
  - intros Hrd H0. rewrite Hrd in Hi.
    rewrite (published_end (stream s)) in Hi by exact H0.
    rewrite app_nil_r in Hi. now symmetry.
Qed.

Lemma lines_arrive_in_order_witness :
  exists s,
    run [LWgAdd; LGoReader; LReadLine; LSend] (init pong_reply) = Some s
    /\ received s = published pong_reply.
Proof.
  exists (mkState 1 false false MGoCloser RRead CIdle "" ["PONG"]).
  assert (H : run [LWgAdd; LGoReader; LReadLine; LSend] (init pong_reply)
              = Some (mkState 1 false false MGoCloser RRead CIdle "" ["PONG"]))
    by (vm_compute; reflexivity).
  split; [exact H|].
  apply (proj2 (lines_arrive_in_order pong_reply _ _ H)); reflexivity.
Defined.

(** X6. The counter of the wait group is 0 or 1 in every interleaving and
    is 1 whenever the reader is about to run [wg.Done()], so it never goes
    negative; and once the completion signal has fired the channel is
    closed: a consumer ranging over the channel ends no later than the
    socket is released. *)
Theorem signal_follows_channel_close :
  forall (reply : string) (sched : list label) (s : state),
    run sched (init reply) = Some s ->
    (wg s = 0 \/ wg s = 1)%Z
    /\ (reader s = RWgDone -> wg s = 1%Z)
    /\ (signal_fired s = true -> ch_closed s = true /\ wg s = 0%Z)
    /\ (conn_closed s = true -> ch_closed s = true).
Proof.
  intros reply sched s Hr.
  assert (Hi : inv s) by (eapply inv_run; [apply inv_init | exact Hr]).
  destruct Hi as (Hm & Hw & Hc & Hch). unfold signal_fired.
  destruct (reader s) eqn:Er; destruct (main s) eqn:Em;
    destruct (closer s) eqn:Ec; intuition (try congruence; try lia).
Qed.

Lemma signal_follows_channel_close_witness :
  exists s,
    run pong_schedule (init pong_reply) = Some s
    /\ ch_closed s = true /\ wg s = 0%Z.
Proof.
  exists (mkState 0 true true MReturned RExited CExited "" ["PONG"]).
  assert (H : run pong_schedule (init pong_reply) =
              Some (mkState 0 true true MReturned RExited CExited "" ["PONG"]))
    by (vm_compute; reflexivity).
  split; [exact H|].
  destruct (signal_follows_channel_close pong_reply _ _ H) as (_ & _ & Hs & _).
  apply Hs. reflexivity.
Defined.

(** X7. No interleaving closes the socket twice: [conn.Close()] runs at
    most once in every schedule. *)
Theorem socket_closed_at_most_once :
  forall (reply : string) (sched : list label) (s : state),
    run sched (init reply) = Some s ->
    List.length (List.filter is_close sched) <= 1.
Proof.
  intros reply sched s Hr.
  apply close_count in Hr. cbn in Hr. exact Hr.
Qed.

Lemma socket_closed_at_most_once_witness :
  List.length (List.filter is_close pong_schedule) <= 1
  /\ run (pong_schedule ++ [LClose]) (init pong_reply) = None.
Proof.
  split.
  - apply (socket_closed_at_most_once pong_reply pong_schedule
             (mkState 0 true true MReturned RExited CExited "" ["PONG"])).
    vm_compute. reflexivity.
  - vm_compute. reflexivity.
Defined.

(** X8. A command makes at most 2n + 8 goroutine actions for a reply of n
    line feeds; and with a consumer that keeps receiving, the only thing
    it can be left waiting for is the daemon: in a state where no
    goroutine can act other than by a read of the socket, either the
    reader is at its read, where it stays until the daemon sends, closes
    or fails, or the signal has fired and the socket is closed. *)
Theorem command_waits_only_for_the_daemon :
  forall (reply : string) (sched : list label) (s : state),
    run sched (init reply) = Some s ->
    List.length sched <= 2 * count_char LF reply + 8
    /\ ((forall l, l <> LReadLine -> l <> LReadStop -> step l s = None) ->
        reader s = RRead
        \/ (conn_closed s = true /\ signal_fired s = true)).
Proof.
  intros reply sched s Hr. split.
  - apply steps_left_run in Hr. unfold steps_left at 2 in Hr.
    cbn [init main reader closer stream] in Hr. lia.
  - intros Hstuck.
    assert (Hi : inv s) by (eapply inv_run; [apply inv_init | exact Hr]).
    assert (Hx : closer s = CExited -> conn_closed s = true).
    { eapply closer_exited_closed; [|exact Hr]. cbn. discriminate. }
    destruct Hi as (Hm & Hw & Hc & _). unfold signal_fired.
    pose proof (Hstuck LWgAdd ltac:(discriminate) ltac:(discriminate)) as H1.
    pose proof (Hstuck LGoReader ltac:(discriminate) ltac:(discriminate)) as H2.
    pose proof (Hstuck LGoCloser ltac:(discriminate) ltac:(discriminate)) as H3.
    pose proof (Hstuck LSend ltac:(discriminate) ltac:(discriminate)) as H5.
    pose proof (Hstuck LCloseCh ltac:(discriminate) ltac:(discriminate)) as H6.
    pose proof (Hstuck LWgDone ltac:(discriminate) ltac:(discriminate)) as H7.
    pose proof (Hstuck LWaitReturns ltac:(discriminate) ltac:(discriminate)) as H8.
    pose proof (Hstuck LClose ltac:(discriminate) ltac:(discriminate)) as H9.
    unfold step in H1, H2, H3, H5, H6, H7, H8, H9.
    destruct (main s) eqn:Em; try discriminate;
      destruct (reader s) eqn:Er; try discriminate;
      try (left; reflexivity);
      destruct (closer s) eqn:Ec; try discriminate;
      try (destruct Hm; congruence);
      try (destruct Hm as (_ & ? & ?); congruence);
      right.
    + rewrite Hw in H8. discriminate.
    + split; [apply Hx|]; reflexivity.
Qed.

Lemma command_waits_only_for_the_daemon_witness :
  List.length pong_schedule <= 2 * count_char LF pong_reply + 8
  /\ (reader (mkState 0 true true MReturned RExited CExited "" ["PONG"]) = RRead
      \/ (conn_closed (mkState 0 true true MReturned RExited CExited "" ["PONG"])
          = true
          /\ signal_fired (mkState 0 true true MReturned RExited CExited "" ["PONG"])
             = true)).
Proof.
  assert (H : run pong_schedule (init pong_reply) =
              Some (mkState 0 true true MReturned RExited CExited "" ["PONG"]))
    by (vm_compute; reflexivity).
  destruct (command_waits_only_for_the_daemon pong_reply _ _ H) as [Hl Hs].
  split; [exact Hl|].
  apply Hs. intros l _ _. destruct l; reflexivity.
Defined.

(** X9. A consumer that stops receiving while the reader holds a line
    keeps the connection for ever: the reader stays at its send and no
    continuation of the schedule closes the socket. *)
Theorem abandoned_channel_keeps_socket_open :
  forall (reply : string) (pre post : list label) (s0 s : state) (line : string),
    run pre (init reply) = Some s0 ->
    reader s0 = RSend line ->
    run post s0 = Some s ->
    List.forallb (fun l => negb (is_send l)) post = true ->
    reader s = RSend line /\ conn_closed s = false /\ signal_fired s = false.
Proof.
  intros reply pre post s0 s line Hpre Hr0 Hpost Hn.
  assert (Hr : reader s = RSend line)
    by (eapply reader_stays_sending; eauto).
  assert (Hi : inv s).
  { eapply inv_run; [|exact Hpost]. eapply inv_run; [apply inv_init | exact Hpre]. }
  destruct Hi as (_ & _ & Hc & _). unfold signal_fired. rewrite Hr in *.
  split; [reflexivity|]. split; [|reflexivity].
  destruct (closer s); try exact Hc; try (destruct Hc; congruence); congruence.
Qed.

Lemma abandoned_channel_keeps_socket_open_witness :
  exists s,
    run [LGoCloser] (mkState 1 false false MGoCloser (RSend "PONG") CIdle "" [])
    = Some s
    /\ conn_closed s = false
    /\ run [LWaitReturns] s = None.
Proof.
  exists (mkState 1 false false MReturned (RSend "PONG") CWait "" []).
  split; [reflexivity|]. split; [|reflexivity].
  apply (abandoned_channel_keeps_socket_open pong_reply
           [LWgAdd; LGoReader; LReadLine] [LGoCloser]
           (mkState 1 false false MGoCloser (RSend "PONG") CIdle "" [])
           (mkState 1 false false MReturned (RSend "PONG") CWait "" [])
           "PONG");
    vm_compute; reflexivity.
Defined.

(** X10. For every reply there is an interleaving in which the consumer
    receives every line of the reply, the channel is closed, the signal
    fires and the socket is closed last. *)
Theorem draining_consumer_gets_every_line :
  forall reply : string,
  exists tail,
    run (draining_schedule (count_char LF reply)) (init reply)
    = Some (mkState 0 true true MReturned RExited CExited tail (published reply)).
Proof.
  intros reply.
  destruct (drain_run (count_char LF reply) reply 1 false false MReturned CWait []
              eq_refl) as (tail & Hrun & _).
  exists tail. unfold draining_schedule.
  rewrite run_app. cbn [run]. unfold step at 1. cbn [init main wg ch_closed
    conn_closed reader closer stream received].
  unfold step at 1. cbn [main wg ch_closed conn_closed reader closer stream received].
  unfold step at 1. cbn [main wg ch_closed conn_closed reader closer stream received].
  rewrite run_app. change (0 + 1)%Z with 1%Z. rewrite Hrun.
  reflexivity.
Qed.

End LifecycleMore.

(** ** The simple commands *)

Lemma events_since_app : forall w w' evs,
    events w' = events w ++ evs -> events_since w w' = evs.
Proof.
  intros w w' evs H. unfold events_since. rewrite H.
  rewrite skipn_app, skipn_all, Nat.sub_diag. reflexivity.
Qed.

Lemma command_frame_eq : forall command,
    list_byte_of_string ("n" ++ command ++ String LF "") = command_frame command.
Proof.
  intros command. unfold command_frame.
  change ("n" ++ command ++ String LF "")%string
    with ("n" ++ (command ++ String LF ""))%string.
  rewrite !list_byte_of_string_app. reflexivity.
Qed.

Lemma simpleCommand_result : forall w c command,
    snd (simpleCommand w c command) =
    Some (match dial_fault w "unix" (address c) with
          | Some e => Err e
          | None =>
              match write_outcome w 0 with
              | Some e => Err e
              | None => Ok (published (daemon_reply w))
              end
          end).
Proof.
  intros w c command.
  unfold simpleCommand, newCLAMDUnixConn, net_Dial.
  destruct (dial_fault w "unix" (address c)) as [e|]; [reflexivity|].
  cbn iota beta. unfold sendCommand, Write.
  change (write_outcome (log w (EvDial "unix" (address c) None)) 0)
    with (write_outcome w 0).
  destruct (write_outcome w 0) as [e|]; reflexivity.
Qed.

Lemma simpleCommand_events : forall w c command,
    events (fst (simpleCommand w c command)) =
    events w ++
      match dial_fault w "unix" (address c) with
      | Some e => [EvDial "unix" (address c) (Some e)]
      | None =>
          EvDial "unix" (address c) None
            :: EvWrite (command_frame command) (write_outcome w 0)
            :: match write_outcome w 0 with
               | Some _ => []
               | None => [EvReadResponse]
               end
      end.
Proof.
  intros w c command.
  unfold simpleCommand, newCLAMDUnixConn, net_Dial.
  destruct (dial_fault w "unix" (address c)) as [e|]; [reflexivity|].
  cbn iota beta. unfold sendCommand, Write.
  change (write_outcome (log w (EvDial "unix" (address c) None)) 0)
    with (write_outcome w 0).
  rewrite command_frame_eq.
  destruct (write_outcome w 0) as [e|]; cbn [fst events log readResponse];
    unfold log; cbn [events]; rewrite <- ?app_assoc; reflexivity.
Qed.


Lemma Ping_of_simpleCommand : forall w c,
    snd (Ping w c) =
    match snd (simpleCommand w c "PING") with
    | None => None
    | Some (Err e) => Some (Some e)
    | Some (Ok ch) => Some (Ping_select ch)
    end.
Proof.
  intros w c. unfold Ping.
  destruct (simpleCommand w c "PING") as [w1 [[ch|e]|]]; reflexivity.
Qed.

Lemma Reload_of_simpleCommand : forall w c,
    snd (Reload w c) =
    match snd (simpleCommand w c "RELOAD") with
    | None => None
    | Some (Err e) => Some (Some e)
    | Some (Ok ch) => Some (Reload_select ch)
    end.
Proof.
  intros w c. unfold Reload.
  destruct (simpleCommand w c "RELOAD") as [w1 [[ch|e]|]]; reflexivity.
Qed.

Lemma Shutdown_of_simpleCommand : forall w c,
    snd (Shutdown w c) =
    match snd (simpleCommand w c "SHUTDOWN") with
    | None => None
    | Some (Err e) => Some (Some e)
    | Some (Ok _) => Some None
    end.
Proof.
  intros w c. unfold Shutdown.
  destruct (simpleCommand w c "SHUTDOWN") as [w1 [[ch|e]|]]; reflexivity.
Qed.






Lemma published_unlines_clean : forall ls,
    (forall l, In l ls -> clean_line l) -> published (unlines ls) = ls.
Proof.
  induction ls as [|l ls IH]; intros Hc; [reflexivity|].
  cbn [unlines].
  rewrite published_line by (apply (Hc l); now left).
  rewrite TrimRight_snoc by reflexivity.
  rewrite TrimRight_id by (apply (Hc l); now left).
  f_equal. apply IH. intros l' Hl'. apply Hc. now right.
Qed.

Lemma simpleCommand_ok : forall w c command,
    dial_fault w "unix" (address c) = None ->
    write_outcome w 0 = None ->
    snd (simpleCommand w c command) = Some (Ok (published (daemon_reply w)))
    /\ events_since w (fst (simpleCommand w c command))
       = [EvDial "unix" (address c) None;
          EvWrite (command_frame command) None;
          EvReadResponse].
Proof.
  intros w c command Hd Hw. split.
  - rewrite simpleCommand_result, Hd, Hw. reflexivity.
  - apply events_since_app. rewrite simpleCommand_events, Hd, Hw. reflexivity.
Qed.

(** X13. On a reachable daemon with the command written, [Version] and the
    five file-scan commands hand the caller every line of the reply, in
    order and trimmed, and have made exactly one write: the marker [n],
    the verb, a space, the path and a line feed. When the daemon's lines
    are clean the caller gets them unchanged. *)
Theorem scan_commands_pass_the_reply_through :
  forall (w : World) (c : Clamd) (path : string),
    dial_fault w "unix" (address c) = None ->
    write_outcome w 0 = None ->
    let sent verb :=
      [EvDial "unix" (address c) None;
       EvWrite (command_frame (verb ++ path)) None;
       EvReadResponse] in
    let reply := Some (Ok (published (daemon_reply w))) in
    (snd (Version w c) = reply
     /\ events_since w (fst (Version w c))
        = [EvDial "unix" (address c) None;
           EvWrite (command_frame "VERSION") None; EvReadResponse])
    /\ (snd (ScanFile w c path) = reply
        /\ events_since w (fst (ScanFile w c path)) = sent "SCAN ")
    /\ (snd (RawScanFile w c path) = reply
        /\ events_since w (fst (RawScanFile w c path)) = sent "RAWSCAN ")
    /\ (snd (MultiScanFile w c path) = reply
        /\ events_since w (fst (MultiScanFile w c path)) = sent "MULTISCAN ")
    /\ (snd (ContScanFile w c path) = reply
        /\ events_since w (fst (ContScanFile w c path)) = sent "CONTSCAN ")
    /\ (snd (AllMatchScanFile w c path) = reply
        /\ events_since w (fst (AllMatchScanFile w c path)) = sent "ALLMATCHSCAN ")
    /\ (forall ls, daemon_reply w = unlines ls ->
                   (forall l, In l ls -> clean_line l) ->
                   snd (ScanFile w c path) = Some (Ok ls)).
Proof.
  intros w c path Hd Hw sent reply.
  repeat split; try (apply simpleCommand_ok; assumption).
  intros ls Hl Hc. unfold ScanFile.
  rewrite (proj1 (simpleCommand_ok w c _ Hd Hw)), Hl.
  rewrite published_unlines_clean by exact Hc. reflexivity.
Qed.

Lemma scan_commands_pass_the_reply_through_witness :
  snd (ScanFile (replying_world (unlines ["/tmp/eicar: Eicar-Test-Signature FOUND"]))
         unix_clamd "/tmp/eicar")
  = Some (Ok ["/tmp/eicar: Eicar-Test-Signature FOUND"])
  /\ events_since (replying_world (unlines ["/tmp/eicar: Eicar-Test-Signature FOUND"]))
       (fst (MultiScanFile
               (replying_world (unlines ["/tmp/eicar: Eicar-Test-Signature FOUND"]))
               unix_clamd "/tmp/eicar"))
     = [EvDial "unix" "/var/run/clamav/clamd.ctl" None;
        EvWrite (command_frame "MULTISCAN /tmp/eicar") None;
        EvReadResponse].
Proof.
  destruct (scan_commands_pass_the_reply_through
              (replying_world (unlines ["/tmp/eicar: Eicar-Test-Signature FOUND"]))
              unix_clamd "/tmp/eicar" eq_refl eq_refl)
    as (_ & _ & _ & Hm & _ & _ & Hl).
  split.
  - apply (Hl ["/tmp/eicar: Eicar-Test-Signature FOUND"]); [reflexivity|].
    intros l [<-|[]]. split; reflexivity.
  - exact (proj2 Hm).
Defined.

(** X14. [Reload] looks at the first value it receives and at nothing
    after it: it succeeds exactly when the reply starts with the line
    [RELOADING]; any other first line, or an exhausted channel received as
    the empty line, gives the error [Invalid response, got <line>.]. *)
Theorem Reload_first_line :
  forall ch : chan,
    (Reload_select ch = None <-> exists rest, ch = "RELOADING" :: rest)
    /\ (forall s rest, ch = s :: rest -> s <> "RELOADING" ->
        Reload_select ch =
          Some (errors_New ("Invalid response, got " ++ s ++ ".")))
    /\ (ch = [] ->
        Reload_select ch = Some (errors_New "Invalid response, got .")).
Proof.
  intros ch. split; [|split].
  - unfold Reload_select. destruct ch as [|s rest]; cbn [recv].
    + split; [discriminate | intros [rest H]; discriminate].
    + destruct (String.eqb_spec s "RELOADING") as [->|Hn].
      * split; [intros _; now exists rest | reflexivity].
      * split; [discriminate | intros [r H]; congruence].
  - intros s rest -> Hn. unfold Reload_select. cbn [recv].
    destruct (String.eqb_spec s "RELOADING") as [->|_]; [contradiction|].
    reflexivity.
  - intros ->. reflexivity.
Qed.

Lemma Reload_first_line_witness :
  Reload_select ["RELOADING"; "anything"] = None
  /\ Reload_select ["PONG"] = Some (errors_New "Invalid response, got PONG.").
Proof.
  destruct (Reload_first_line ["RELOADING"; "anything"]) as [[_ H1] _].
  destruct (Reload_first_line ["PONG"]) as [_ [H2 _]].
  split.
  - apply H1. now exists ["anything"].
  - apply (H2 "PONG" []); [reflexivity | discriminate].
Defined.

(** X15. On a reachable daemon with the command written, [Ping] and
    [Reload] return their verdict on the lines the reader publishes, and
    [Shutdown] returns no error whatever the daemon replies: its result
    depends on the dial and the write alone. *)
Theorem verdict_commands :
  forall (w : World) (c : Clamd),
    dial_fault w "unix" (address c) = None ->
    write_outcome w 0 = None ->
    snd (Ping w c) = Some (Ping_select (published (daemon_reply w)))
    /\ snd (Reload w c) = Some (Reload_select (published (daemon_reply w)))
    /\ snd (Shutdown w c) = Some None
    /\ events_since w (fst (Shutdown w c))
       = [EvDial "unix" (address c) None;
          EvWrite (command_frame "SHUTDOWN") None; EvReadResponse].
Proof.
  intros w c Hd Hw.
  split; [|split; [|split]].
  - rewrite Ping_of_simpleCommand, (proj1 (simpleCommand_ok w c _ Hd Hw)).
    reflexivity.
  - rewrite Reload_of_simpleCommand, (proj1 (simpleCommand_ok w c _ Hd Hw)).
    reflexivity.
  - rewrite Shutdown_of_simpleCommand, (proj1 (simpleCommand_ok w c _ Hd Hw)).
    reflexivity.
  - rewrite <- (proj2 (simpleCommand_ok w c "SHUTDOWN" Hd Hw)).
    unfold Shutdown.
    destruct (simpleCommand w c "SHUTDOWN") as [w1 [[ch|e]|]]; reflexivity.
Qed.

Lemma verdict_commands_witness :
  snd (Ping calm_world unix_clamd) = Some None
  /\ snd (Reload calm_world unix_clamd)
     = Some (Some (errors_New "Invalid response, got PONG."))
  /\ snd (Shutdown calm_world unix_clamd) = Some None.
Proof.
  destruct (verdict_commands calm_world unix_clamd eq_refl eq_refl)
    as (Hp & Hr & Hs & _).
  split; [rewrite Hp; vm_compute; reflexivity|].
  split; [rewrite Hr; vm_compute; reflexivity | exact Hs].
Defined.

(** X16. The path of a scan command is written as it is: after a line
    feed inside the path, the rest of the path reaches the daemon as a
    line of its own. The bytes handed to the socket for the path [p],
    line feed, [q] are those for the path [p] followed by [q] and a line
    feed. *)
Theorem scan_path_is_not_escaped :
  forall (w : World) (c : Clamd) (p q : string),
    dial_fault w "unix" (address c) = None ->
    wire (events_since w (fst (ScanFile w c (p ++ String LF q))))
    = wire (events_since w (fst (ScanFile w c p)))
      ++ list_byte_of_string (q ++ String LF "").
Proof.
  intros w c p q Hd. unfold ScanFile.
  rewrite !(events_since_app _ _ _ (simpleCommand_events w c _)), Hd.
  assert (Hw : forall cmd,
             wire (EvDial "unix" (address c) None
                     :: EvWrite (command_frame cmd) (write_outcome w 0)
                     :: match write_outcome w 0 with
                        | Some _ => []
                        | None => [EvReadResponse]
                        end) = command_frame cmd).
  { intros cmd. unfold wire. cbn [List.flat_map handed app].
    destruct (write_outcome w 0); cbn; now rewrite app_nil_r. }
  rewrite !Hw. unfold command_frame.
  rewrite !list_byte_of_string_app. cbn [app].
  rewrite <- !app_assoc. reflexivity.
Qed.

Lemma scan_path_is_not_escaped_witness :
  wire (events_since calm_world
          (fst (ScanFile calm_world unix_clamd ("/tmp/a" ++ String LF "SHUTDOWN"))))
  = command_frame "SCAN /tmp/a" ++ list_byte_of_string ("SHUTDOWN" ++ String LF "").
Proof.
  rewrite (scan_path_is_not_escaped calm_world unix_clamd "/tmp/a" "SHUTDOWN" eq_refl).
  vm_compute. reflexivity.
Defined.

(** X17. No command calls a method on a nil connection: the openers return
    a connection whenever they return no error, so [simpleCommand], [Ping],
    [Reload], [Shutdown] and [ScanStream] never end in that panic. *)
Theorem no_nil_connection :
  forall (w : World) (c : Clamd),
    (forall command, snd (simpleCommand w c command) <> None)
    /\ snd (Ping w c) <> None
    /\ snd (Reload w c) <> None
    /\ snd (Shutdown w c) <> None
    /\ (forall Src Read fuel r w' res,
           ScanStream Src Read fuel w c r = Some (w', res) -> res <> None).
Proof.
  intros w c.
  assert (Hr : forall command, exists x, snd (simpleCommand w c command) = Some x).
  { intros command. rewrite simpleCommand_result. eauto. }
  split; [|split; [|split; [|split]]].
  - intros command. destruct (Hr command) as [x ->]. discriminate.
  - rewrite Ping_of_simpleCommand. destruct (Hr "PING") as [[ch|e] ->]; discriminate.
  - rewrite Reload_of_simpleCommand. destruct (Hr "RELOAD") as [[ch|e] ->]; discriminate.
  - rewrite Shutdown_of_simpleCommand.
    destruct (Hr "SHUTDOWN") as [[ch|e] ->]; discriminate.
  - intros Src Read fuel r w' res H.
    unfold ScanStream, newConnection, newCLAMDUnixConn, net_Dial in H.
    destruct (dial_fault w "unix" (address c)) as [e|]; cbn iota beta in H.
    + injection H as _ <-. discriminate.
    + destruct (sendCommand _ _ "INSTREAM") as [w1 e1].
      destruct (upload Src Read fuel w1 _ r) as [[w2 r2]|]; [|discriminate].
      unfold sendEOF, Write in H. cbn iota beta in H.
      destruct (write_outcome w2 0); cbn iota beta in H;
        injection H as _ <-; discriminate.
Qed.

Lemma no_nil_connection_witness :
  exists w' res,
    ScanStream script_Reader script_Read 3 calm_world unix_clamd two_chunks
    = Some (w', res) /\ res <> None.
Proof.
  destruct (ScanStream script_Reader script_Read 3 calm_world unix_clamd two_chunks)
    as [[w' res]|] eqn:E; [|vm_compute in E; discriminate E].
  exists w', res. split; [reflexivity|].
  destruct (no_nil_connection calm_world unix_clamd) as (_ & _ & _ & _ & H).
  exact (H _ _ _ _ _ _ E).
Defined.

(** ** The statistics reply *)

Lemma HasPrefix_split : forall s p,
    HasPrefix s p = true -> exists rest, s = (p ++ rest)%string.
Proof.
  unfold HasPrefix. induction s as [|c s IH]; intros p H.
  - destruct p; [exists EmptyString; reflexivity | discriminate].
  - destruct p as [|d p]; [exists (String c s); reflexivity|].
    cbn [String.prefix] in H.
    destruct (ascii_dec d c) as [->|]; [|discriminate].
    destruct (IH p H) as [rest ->]. exists rest. reflexivity.
Qed.

Lemma Stats_line_panics_iff : forall stats s,
    Stats_line stats s = None <-> s = "POOLS".
Proof.
  intros stats s. split.
  - unfold Stats_line. destruct (HasPrefix s "POOLS") eqn:Hp.
    + destruct (HasPrefix_split s "POOLS" Hp) as [rest ->].
      unfold slice_from. rewrite length_append.
      destruct rest as [|c rest]; [reflexivity|].
      cbn [String.length Nat.add Nat.leb]. discriminate.
    + destruct (HasPrefix s "STATE"); [discriminate|].
      destruct (HasPrefix s "THREADS"); [discriminate|].
      destruct (HasPrefix s "QUEUE"); [discriminate|].
      destruct (HasPrefix s "MEMSTATS"); [discriminate|].
      destruct (HasPrefix s "END"); discriminate.
  - intros ->. reflexivity.
Qed.

Lemma Stats_range_app : forall a b stats,
    Stats_range (a ++ b) stats =
    match Stats_range a stats with
    | Some stats' => Stats_range b stats'
    | None => None
    end.
Proof.
  induction a as [|s a IH]; intros b stats; cbn [app Stats_range];
    [reflexivity|].
  destruct (Stats_line stats s); [apply IH | reflexivity].
Qed.

(** What one line does to each field. *)
Lemma Stats_line_fields : forall st0 s st,
    Stats_line st0 s = Some st ->
    (HasPrefix s "POOLS" = true /\ exists t,
        slice_from s 6 = Some t /\
        st = mkStats (Trim t " ") (State st0) (Threads st0) (Memstats st0) (Queue st0))
    \/ (HasPrefix s "STATE" = true /\
        st = mkStats (Pools st0) s (Threads st0) (Memstats st0) (Queue st0))
    \/ (HasPrefix s "THREADS" = true /\
        st = mkStats (Pools st0) (State st0) s (Memstats st0) (Queue st0))
    \/ (HasPrefix s "QUEUE" = true /\
        st = mkStats (Pools st0) (State st0) (Threads st0) (Memstats st0) s)
    \/ (HasPrefix s "MEMSTATS" = true /\
        st = mkStats (Pools st0) (State st0) (Threads st0) s (Queue st0))
    \/ (stats_relevant s = false /\ st = st0).
Proof.
  intros st0 s st H. unfold Stats_line in H. unfold stats_relevant.
  destruct (HasPrefix s "POOLS") eqn:H1.
  { left. split; [reflexivity|].
    destruct (slice_from s 6) as [t|]; [|discriminate].
    injection H as <-. exists t. split; reflexivity. }
  destruct (HasPrefix s "STATE") eqn:H2.
  { right; left. injection H as <-. split; reflexivity. }
  destruct (HasPrefix s "THREADS") eqn:H3.
  { right; right; left. injection H as <-. split; reflexivity. }
  destruct (HasPrefix s "QUEUE") eqn:H4.
  { right; right; right; left. injection H as <-. split; reflexivity. }
  destruct (HasPrefix s "MEMSTATS") eqn:H5.
  { right; right; right; right; left. injection H as <-. split; reflexivity. }
  right; right; right; right; right.
  destruct (HasPrefix s "END"); injection H as <-; split; reflexivity.
Qed.

Lemma TrimLeft_first : forall s cutset c,
    first_char (TrimLeft s cutset) = Some c -> in_cutset c cutset = false.
Proof.
  induction s as [|d s IH]; intros cutset c H; cbn [TrimLeft] in H;
    [discriminate|].
  destruct (in_cutset d cutset) eqn:Hd; [apply IH; exact H|].
  cbn in H. injection H as <-. exact Hd.
Qed.

Lemma TrimRight_first : forall s cutset c,
    first_char (TrimRight s cutset) = Some c -> first_char s = Some c.
Proof.
  intros [|d s] cutset c H; cbn [TrimRight] in H; [discriminate|].
  destruct (TrimRight s cutset).
  - destruct (in_cutset d cutset); [discriminate | exact H].
  - exact H.
Qed.

Lemma Trim_no_space : forall t,
    first_char (Trim t " ") <> Some " "%char
    /\ last_char (Trim t " ") <> Some " "%char.
Proof.
  intros t. unfold Trim. split; intros H.
  - apply TrimRight_first, TrimLeft_first in H. discriminate.
  - pose proof (TrimRight_last (TrimLeft t " ") " ") as Hl.
    rewrite H in Hl. discriminate.
Qed.

(** X18. [Stats] panics on exactly one kind of reply: one that holds the
    line [POOLS] with nothing after it. Every other reply gives a record. *)
Theorem Stats_panics_only_on_bare_POOLS :
  forall (ch : chan) (stats : Stats),
    Stats_range ch stats = None <-> In "POOLS" ch.
Proof.
  induction ch as [|s ch IH]; intros stats; cbn [Stats_range In].
  - split; [discriminate | contradiction].
  - destruct (Stats_line stats s) as [st|] eqn:E.
    + rewrite IH. split; [now right|].
      intros [->|H]; [|exact H].
      change (Stats_line stats "POOLS") with (@None Stats) in E. discriminate E.
    + apply Stats_line_panics_iff in E. split; [now left | reflexivity].
Qed.

(** X19. Lines that start with none of POOLS, STATE, THREADS, QUEUE and
    MEMSTATS, the END line among them, have no effect at all: removing
    them from the reply leaves the result of [Stats] unchanged. END does
    not end the parsing: the lines after it count as the ones before. *)
Theorem Stats_ignores_other_lines :
  forall (ch : chan) (stats : Stats),
    Stats_range (List.filter stats_relevant ch) stats = Stats_range ch stats.
Proof.
  induction ch as [|s ch IH]; intros stats; cbn [List.filter Stats_range];
    [reflexivity|].
  destruct (stats_relevant s) eqn:Hr.
  - cbn [Stats_range]. destruct (Stats_line stats s); [apply IH | reflexivity].
  - destruct (Stats_line stats s) as [st|] eqn:E.
    + destruct (Stats_line_fields _ _ _ E)
        as [[H _]|[[H _]|[[H _]|[[H _]|[[H _]|[_ ->]]]]]];
        try (unfold stats_relevant in Hr; rewrite H in Hr;
             rewrite ?orb_true_r in Hr; discriminate).
      apply IH.
    + apply Stats_line_panics_iff in E. subst s. discriminate.
Qed.

(** X20. Every field of the record [Stats] returns is either the value it
    started with or comes from a line of the reply: State, Threads, Queue
    and Memstats hold such a line whole, one that starts with their
    prefix; Pools holds the text from byte 6 of a POOLS line with the
    spaces around it trimmed, so it neither starts nor ends with a space. *)
Theorem Stats_fields_come_from_the_reply :
  forall (ch : chan) (st0 st : Stats),
    Stats_range ch st0 = Some st ->
    (State st = State st0
     \/ (In (State st) ch /\ HasPrefix (State st) "STATE" = true))
    /\ (Threads st = Threads st0
        \/ (In (Threads st) ch /\ HasPrefix (Threads st) "THREADS" = true))
    /\ (Queue st = Queue st0
        \/ (In (Queue st) ch /\ HasPrefix (Queue st) "QUEUE" = true))
    /\ (Memstats st = Memstats st0
        \/ (In (Memstats st) ch /\ HasPrefix (Memstats st) "MEMSTATS" = true))
    /\ (Pools st = Pools st0
        \/ (exists s t,
               In s ch /\ HasPrefix s "POOLS" = true
               /\ slice_from s 6 = Some t /\ Pools st = Trim t " "
               /\ first_char (Pools st) <> Some " "%char
               /\ last_char (Pools st) <> Some " "%char)).
Proof.
  induction ch as [|s ch IH]; intros st0 st H; cbn [Stats_range] in H.
  - injection H as <-. repeat split; now left.
  - destruct (Stats_line st0 s) as [st1|] eqn:E; [|discriminate].
    specialize (IH st1 st H). destruct IH as (I1 & I2 & I3 & I4 & I5).
    assert (Hin : forall x, In x ch -> In x (s :: ch)) by (intros; now right).
    assert (K1 : State st1 = State st0 \/ (State st1 = s /\ HasPrefix s "STATE" = true)).
    { destruct (Stats_line_fields _ _ _ E)
        as [[_ (t & _ & ->)]|[[Hp ->]|[[_ ->]|[[_ ->]|[[_ ->]|[_ ->]]]]]];
        cbn; auto. }
    assert (K2 : Threads st1 = Threads st0 \/ (Threads st1 = s /\ HasPrefix s "THREADS" = true)).
    { destruct (Stats_line_fields _ _ _ E)
        as [[_ (t & _ & ->)]|[[_ ->]|[[Hp ->]|[[_ ->]|[[_ ->]|[_ ->]]]]]];
        cbn; auto. }
    assert (K3 : Queue st1 = Queue st0 \/ (Queue st1 = s /\ HasPrefix s "QUEUE" = true)).
    { destruct (Stats_line_fields _ _ _ E)
        as [[_ (t & _ & ->)]|[[_ ->]|[[_ ->]|[[Hp ->]|[[_ ->]|[_ ->]]]]]];
        cbn; auto. }
    assert (K4 : Memstats st1 = Memstats st0 \/ (Memstats st1 = s /\ HasPrefix s "MEMSTATS" = true)).
    { destruct (Stats_line_fields _ _ _ E)
        as [[_ (t & _ & ->)]|[[_ ->]|[[_ ->]|[[_ ->]|[[Hp ->]|[_ ->]]]]]];
        cbn; auto. }
    assert (K5 : Pools st1 = Pools st0
                 \/ (exists t, HasPrefix s "POOLS" = true
                               /\ slice_from s 6 = Some t /\ Pools st1 = Trim t " ")).
    { destruct (Stats_line_fields _ _ _ E)
        as [[Hp (t & Ht & ->)]|[[_ ->]|[[_ ->]|[[_ ->]|[[_ ->]|[_ ->]]]]]];
        cbn; eauto. }
    split; [|split; [|split; [|split]]].
    + destruct I1 as [I1|[I1 I1']]; [|right; auto].
      rewrite I1. destruct K1 as [K1|[K1 K1']]; [now left|].
      right. rewrite K1. split; [now left | exact K1'].
    + destruct I2 as [I2|[I2 I2']]; [|right; auto].
      rewrite I2. destruct K2 as [K2|[K2 K2']]; [now left|].
      right. rewrite K2. split; [now left | exact K2'].
    + destruct I3 as [I3|[I3 I3']]; [|right; auto].
      rewrite I3. destruct K3 as [K3|[K3 K3']]; [now left|].
      right. rewrite K3. split; [now left | exact K3'].
    + destruct I4 as [I4|[I4 I4']]; [|right; auto].
      rewrite I4. destruct K4 as [K4|[K4 K4']]; [now left|].
      right. rewrite K4. split; [now left | exact K4'].
    + destruct I5 as [I5|(s' & t & Hs' & Hp & Ht & Hq & Hf)].
      * rewrite I5. destruct K5 as [K5|(t & Hp & Ht & K5)]; [now left|].
        right. exists s, t. rewrite K5.
        repeat split; auto; try (now left); apply Trim_no_space.
      * right. exists s', t. repeat split; auto; apply Hf.
Qed.

Lemma Stats_fields_come_from_the_reply_witness :
  In "STATE: VALID PRIMARY" ["POOLS: 1"; "STATE: VALID PRIMARY"; "END"]
  /\ HasPrefix "STATE: VALID PRIMARY" "STATE" = true.
Proof.
  assert (H : Stats_range ["POOLS: 1"; "STATE: VALID PRIMARY"; "END"]
                (mkStats "" "" "" "" "")
              = Some (mkStats "1" "STATE: VALID PRIMARY" "" "" ""))
    by reflexivity.
  destruct (Stats_fields_come_from_the_reply _ _ _ H) as ([Hs|Hs] & _).
  - discriminate Hs.
  - exact Hs.
Defined.

Lemma HasPrefix_first : forall s p c,
    HasPrefix s p = true -> first_char p = Some c -> first_char s = Some c.
Proof.
  intros s p c H Hc. destruct (HasPrefix_split s p H) as [rest ->].
  destruct p; [discriminate | exact Hc].
Qed.

Lemma stats_relevant_false : forall s,
    stats_relevant s = false ->
    HasPrefix s "POOLS" = false /\ HasPrefix s "STATE" = false
    /\ HasPrefix s "THREADS" = false /\ HasPrefix s "QUEUE" = false
    /\ HasPrefix s "MEMSTATS" = false.
Proof.
  intros s H. unfold stats_relevant in H.
  repeat match goal with
    | H : _ || _ = false |- _ => apply orb_false_elim in H; destruct H
    end.
  repeat split; assumption.
Qed.

Ltac other_prefix :=
  match goal with
  | Ha : HasPrefix ?s ?a = true, Hb : HasPrefix ?s ?b = true |- _ =>
      apply (HasPrefix_first s a) with (c := match first_char a with Some c => c | None => SP end) in Ha;
      [|reflexivity];
      apply (HasPrefix_first s b) with (c := match first_char b with Some c => c | None => SP end) in Hb;
      [|reflexivity];
      rewrite Ha in Hb; discriminate Hb
  | Ha : HasPrefix ?s ?a = true, Hr : stats_relevant ?s = false |- _ =>
      apply stats_relevant_false in Hr;
      destruct Hr as (? & ? & ? & ? & ?); congruence
  end.

(** X21. A line starts with at most one of the prefixes, so the order of
    the tests decides nothing, and the last line of a kind wins: after a
    reply that ends with a line of one of the five kinds, the field of
    that kind holds that line (for POOLS, its trimmed text from byte 6). *)
Theorem Stats_last_line_wins :
  forall (ch : chan) (s : string) (st0 st : Stats),
    Stats_range (ch ++ [s]) st0 = Some st ->
    (HasPrefix s "STATE" = true -> State st = s)
    /\ (HasPrefix s "THREADS" = true -> Threads st = s)
    /\ (HasPrefix s "QUEUE" = true -> Queue st = s)
    /\ (HasPrefix s "MEMSTATS" = true -> Memstats st = s)
    /\ (HasPrefix s "POOLS" = true ->
        exists t, slice_from s 6 = Some t /\ Pools st = Trim t " ").
Proof.
  intros ch s st0 st H. rewrite Stats_range_app in H.
  destruct (Stats_range ch st0) as [st1|]; [|discriminate].
  cbn [Stats_range] in H.
  destruct (Stats_line st1 s) as [st2|] eqn:E; [|discriminate].
  injection H as <-.
  destruct (Stats_line_fields _ _ _ E)
    as [[Hp (t & Ht & ->)]|[[Hp ->]|[[Hp ->]|[[Hp ->]|[[Hp ->]|[Hp ->]]]]]];
    (split; [|split; [|split; [|split]]]); intros Hq;
    try reflexivity; try other_prefix.
  exists t. split; [exact Ht | reflexivity].
Qed.

Lemma Stats_last_line_wins_witness :
  State (mkStats "" "STATE: EXIT" "" "" "") = "STATE: EXIT".
Proof.
  assert (H : Stats_range (["STATE: VALID PRIMARY"; "END"] ++ ["STATE: EXIT"])
                (mkStats "" "" "" "" "")
              = Some (mkStats "" "STATE: EXIT" "" "" "")) by reflexivity.
  destruct (Stats_last_line_wins _ _ _ _ H) as (Hs & _).
  apply Hs. reflexivity.
Defined.

(** ** The upload, byte by byte *)

Lemma wire_app : forall a b, wire (a ++ b) = wire a ++ wire b.
Proof. intros a b. unfold wire. apply flat_map_app. Qed.

Lemma wire_chunks : forall Src Read faults r l,
    wire (List.flat_map (chunk_events Src Read faults r) l) =
    List.flat_map
      (fun j => length_prefix (len (fst (read_at Src Read j r)))
                ++ fst (read_at Src Read j r)) l.
Proof.
  intros Src Read faults r. induction l as [|j l IH]; [reflexivity|].
  cbn [List.flat_map]. rewrite wire_app, IH. f_equal.
  unfold chunk_events, wire. cbn [List.flat_map handed app].
  now rewrite app_nil_r.
Qed.

Lemma ScanStream_events_wire : forall Src Read w c r k,
    wire (ScanStream_events Src Read w c r k) =
    command_frame "INSTREAM" ++ framed_chunks Src Read r k
      ++ [x00; x00; x00; x00].
Proof.
  intros Src Read w c r k. unfold ScanStream_events, framed_chunks.
  rewrite !wire_app, wire_chunks. f_equal. f_equal.
  unfold wire. cbn [List.flat_map handed app].
  destruct (List.nth (2 * k + 1) (write_faults w) None); reflexivity.
Qed.

(** X22. For a source that keeps the reader contract (a read gives no
    more bytes than the buffer holds), the bytes [ScanStream] hands to the
    socket are the [INSTREAM] frame, then each read before the stopping one as a chunk (its length
    in four bytes, then its bytes), in the order read, then the four zero
    bytes, whatever the outcomes of the writes; the bytes that came with
    the stopping read are not among them. *)
Theorem ScanStream_wire :
  forall (Src : Type) (Read : Src -> nat -> list byte * option error * Src)
         (k fuel : nat) (w : World) (c : Clamd) (r : Src),
    (forall s n, List.length (fst (fst (Read s n))) <= n) ->
    dial_fault w "unix" (address c) = None ->
    first_stop Src Read k r ->
    k < fuel ->
    exists w' res,
      ScanStream Src Read fuel w c r = Some (w', res)
      /\ wire (events_since w w') =
           command_frame "INSTREAM" ++ framed_chunks Src Read r k
             ++ [x00; x00; x00; x00].
Proof.
  intros Src Read k fuel w c r _ Hd Hs Hf.
  destruct (ScanStream_run Src Read k fuel w c r Hf Hs Hd) as (w' & Hr & He).
  eexists w', _. split; [exact Hr|].
  rewrite (events_since_app _ _ _ He). apply ScanStream_events_wire.
Qed.

Lemma ScanStream_wire_witness :
  exists w' res,
    ScanStream script_Reader script_Read 1 calm_world unix_clamd
      [(EICAR, Some (OpError "read" 5))]
    = Some (w', res)
    /\ wire (events_since calm_world w')
       = command_frame "INSTREAM" ++ [x00; x00; x00; x00].
Proof.
  assert (Hs : first_stop script_Reader script_Read 0
                 [(EICAR, Some (OpError "read" 5))]).
  { split; [reflexivity|]. intros j Hj. lia. }
  destruct (ScanStream_wire script_Reader script_Read 0 1 calm_world unix_clamd
              [(EICAR, Some (OpError "read" 5))] script_Read_contract eq_refl
              Hs ltac:(lia))
    as (w' & res & H1 & H2).
  exists w', res. split; [exact H1|]. rewrite H2. reflexivity.
Defined.

(** X23. An error of the source is never returned: for a source that
    keeps the reader contract, when the read that stops the loop fails, with any error, and the terminator is written,
    [ScanStream] returns the channel and no error, as it does at the end
    of the source. *)
Theorem ScanStream_hides_source_errors :
  forall (Src : Type) (Read : Src -> nat -> list byte * option error * Src)
         (k fuel : nat) (w : World) (c : Clamd) (r : Src) (e : error),
    (forall s n, List.length (fst (fst (Read s n))) <= n) ->
    dial_fault w "unix" (address c) = None ->
    first_stop Src Read k r ->
    snd (read_at Src Read k r) = Some e ->
    List.nth (2 * k + 1) (write_faults w) None = None ->
    k < fuel ->
    exists w',
      ScanStream Src Read fuel w c r
      = Some (w', Some (Ok (published (daemon_reply w))))
      /\ List.In (EvSourceRead CHUNK_SIZE (fst (read_at Src Read k r)) (Some e))
                 (events_since w w')
      /\ List.In EvReadResponse (events_since w w').
Proof.
  intros Src Read k fuel w c r e _ Hd Hs He Hw Hf.
  destruct (ScanStream_run Src Read k fuel w c r Hf Hs Hd) as (w' & Hr & Hev).
  exists w'. rewrite Hw in Hr. split; [exact Hr|].
  rewrite (events_since_app _ _ _ Hev). unfold ScanStream_events.
  rewrite Hw, He. split.
  - apply in_or_app. right. apply in_or_app. right. now left.
  - apply in_or_app. right. apply in_or_app. right. right. right. now left.
Qed.

Lemma ScanStream_hides_source_errors_witness :
  exists w',
    ScanStream script_Reader script_Read 2 calm_world unix_clamd
      [(EICAR, None); ([], Some (OpError "read" 5))]
    = Some (w', Some (Ok ["PONG"])).
Proof.
  assert (Hs : first_stop script_Reader script_Read 1
                 [(EICAR, None); ([], Some (OpError "read" 5))]).
  { split; [reflexivity|]. intros j Hj.
    destruct j as [|j]; [reflexivity | lia]. }
  destruct (ScanStream_hides_source_errors script_Reader script_Read 1 2
              calm_world unix_clamd
              [(EICAR, None); ([], Some (OpError "read" 5))]
              (OpError "read" 5) script_Read_contract eq_refl Hs eq_refl
              eq_refl ltac:(lia))
    as (w' & H1 & _).
  exists w'. rewrite H1. vm_compute. reflexivity.
Defined.

Lemma flat_map_seq_at : forall (A : Type) (f : nat -> list A) (k j : nat),
    j < k ->
    exists pre post, List.flat_map f (List.seq 0 k) = pre ++ f j ++ post.
Proof.
  intros A f k j Hj.
  assert (Hin : In j (List.seq 0 k)) by (apply in_seq; lia).
  apply in_split in Hin. destruct Hin as (l1 & l2 & ->).
  exists (List.flat_map f l1), (List.flat_map f l2).
  rewrite flat_map_app. reflexivity.
Qed.

(** X24. No chunk is mistaken for the terminator. For a source that keeps
    the reader contract, [ScanStream] on a reachable daemon returns and,
    for each read before the stopping one, its events hold that read
    followed by the two writes of [sendChunk]: a four-byte prefix that
    reads as the exact length of the chunk, between 1 and 1024, and so is
    not the four zero bytes, and then the bytes read. *)
Theorem forwarded_chunks_are_not_terminators :
  forall (Src : Type) (Read : Src -> nat -> list byte * option error * Src)
         (k fuel : nat) (w : World) (c : Clamd) (r : Src),
    (forall s n, List.length (fst (fst (Read s n))) <= n) ->
    dial_fault w "unix" (address c) = None ->
    first_stop Src Read k r ->
    k < fuel ->
    exists w' res,
      ScanStream Src Read fuel w c r = Some (w', res)
      /\ forall j, j < k ->
           exists pre post p r0 r1,
             events_since w w' =
               pre ++ [ EvSourceRead CHUNK_SIZE (fst (read_at Src Read j r)) None;
                        EvWrite p r0;
                        EvWrite (fst (read_at Src Read j r)) r1 ] ++ post
             /\ be_uint32 p = Some (len (fst (read_at Src Read j r)))
             /\ (1 <= len (fst (read_at Src Read j r)) <= 1024)%Z
             /\ p <> [x00; x00; x00; x00].
Proof.
  intros Src Read k fuel w c r Hc Hd Hs Hf.
  destruct (ScanStream_run Src Read k fuel w c r Hf Hs Hd) as (w' & Hr & He).
  eexists w', _. split; [exact Hr|].
  intros j Hj.
  destruct Hs as [_ Hb]. specialize (Hb j Hj). unfold stops in Hb.
  destruct (snd (read_at Src Read j r)); [discriminate|].
  apply Z.eqb_neq in Hb.
  assert (Hle : (len (fst (read_at Src Read j r)) <= 1024)%Z).
  { unfold read_at, len.
    pose proof (Hc (reader_after Src Read j r) CHUNK_SIZE) as H.
    remember (List.length (fst (fst (Read (reader_after Src Read j r) CHUNK_SIZE))))
      as n eqn:En.
    unfold CHUNK_SIZE in H. lia. }
  assert (H0 : (0 <= len (fst (read_at Src Read j r)))%Z) by (unfold len; lia).
  assert (Hdec : be_uint32 (length_prefix (len (fst (read_at Src Read j r))))
                 = Some (len (fst (read_at Src Read j r)))).
  { rewrite be_uint32_length_prefix by exact H0. f_equal.
    apply Z.mod_small. lia. }
  destruct (flat_map_seq_at event
              (chunk_events Src Read (List.tl (write_faults w)) r) k j Hj)
    as (pre & post & Hsplit).
  rewrite (events_since_app _ _ _ He). unfold ScanStream_events.
  rewrite Hsplit.
  assert (Heq : forall (a b x : list event),
             a ++ (pre ++ x ++ post) ++ b = (a ++ pre) ++ x ++ (post ++ b)).
  { intros a b x. rewrite <- !app_assoc. reflexivity. }
  rewrite Heq. unfold chunk_events.
  eexists _, _, _, _, _. split; [reflexivity|].
  split; [exact Hdec|]. split; [lia|].
  intros Hz. rewrite Hz in Hdec. cbn in Hdec. injection Hdec as Hdec. lia.
Qed.

Lemma forwarded_chunks_are_not_terminators_witness :
  exists w' pre post p r0 r1,
    ScanStream script_Reader script_Read 2 calm_world unix_clamd stalling_source
    = Some (w', Some (Ok ["PONG"]))
    /\ events_since calm_world w' =
         pre ++ [ EvSourceRead CHUNK_SIZE EICAR None; EvWrite p r0;
                  EvWrite EICAR r1 ] ++ post
    /\ be_uint32 p = Some 68%Z
    /\ p <> [x00; x00; x00; x00].
Proof.
  destruct (forwarded_chunks_are_not_terminators script_Reader script_Read 1 2
              calm_world unix_clamd stalling_source script_Read_contract eq_refl
              stalling_source_stops ltac:(lia)) as (w' & res & Hr & Hj).
  destruct (Hj 0 ltac:(lia)) as (pre & post & p & r0 & r1 & He & Hd & _ & Hz).
  exists w', pre, post, p, r0, r1.
  assert (Hres : ScanStream script_Reader script_Read 2 calm_world unix_clamd
                   stalling_source
                 = Some (w', Some (Ok ["PONG"]))).
  { rewrite Hr. f_equal. f_equal.
    assert (Hv : option_map snd
                   (ScanStream script_Reader script_Read 2 calm_world unix_clamd
                      stalling_source) = Some (Some (Ok ["PONG"])))
      by (vm_compute; reflexivity).
    rewrite Hr in Hv. cbn [option_map snd] in Hv. injection Hv as Hv. exact Hv. }
  split; [exact Hres|]. split; [exact He|]. split; [exact Hd | exact Hz].
Defined.

Lemma bytes_reader_chunks : forall n (data : bytes_Reader),
    List.length data <= n ->
    exists k,
      first_stop bytes_Reader bytes_Read k data
      /\ read_bytes bytes_Reader bytes_Read data k = data
      /\ k <= List.length data.
Proof.
  induction n as [|n IH]; intros data Hn.
  - destruct data; [|cbn in Hn; lia].
    exists 0. split; [split; [reflexivity | intros j Hj; lia]|].
    split; [reflexivity | cbn; lia].
  - destruct data as [|b rest].
    { exists 0. split; [split; [reflexivity | intros j Hj; lia]|].
      split; [reflexivity | cbn; lia]. }
    set (data := b :: rest) in *.
    assert (Hread : bytes_Read data CHUNK_SIZE
                    = (List.firstn CHUNK_SIZE data, None, List.skipn CHUNK_SIZE data))
      by reflexivity.
    assert (Hlen : List.length (List.skipn CHUNK_SIZE data) <= n).
    { rewrite length_skipn. unfold CHUNK_SIZE. subst data.
      cbn [List.length] in *. lia. }
    destruct (IH (List.skipn CHUNK_SIZE data) Hlen) as (k & [Hs Hb] & Hbytes & Hk).
    assert (Hat : forall j, read_at bytes_Reader bytes_Read (S j) data
                            = read_at bytes_Reader bytes_Read j
                                (List.skipn CHUNK_SIZE data)).
    { intros j. unfold read_at. cbn [reader_after]. rewrite Hread. reflexivity. }
    exists (S k). split; [split|split].
    + rewrite Hat. exact Hs.
    + intros j Hj. destruct j as [|j].
      * unfold read_at. cbn [reader_after]. rewrite Hread. unfold stops.
        cbn [fst snd]. apply Z.eqb_neq. unfold len.
        rewrite length_firstn. unfold CHUNK_SIZE. subst data.
        cbn [List.length]. lia.
      * rewrite Hat. apply Hb. lia.
    + unfold read_bytes.
      change (List.seq 0 (S k)) with (0 :: List.seq 1 k).
      cbn [List.flat_map]. rewrite flat_map_seq_S.
      rewrite (flat_map_ext _ _ (fun j => f_equal fst (Hat j))).
      unfold read_bytes in Hbytes. rewrite Hbytes.
      unfold read_at at 1. cbn [reader_after]. rewrite Hread. cbn [fst].
      apply firstn_skipn.
    + rewrite length_skipn in Hk. unfold CHUNK_SIZE in Hk. subst data.
      cbn [List.length] in *. lia.
Qed.

(** X25. A byte sequence read through a buffer reader (it fills the buffer
    from what is left and reports the end once nothing is) is uploaded
    whole: with fuel above its length [ScanStream] returns, the chunks it
    forwards hold the bytes of the sequence in order, nothing lost and
    nothing added, and the wire is the frame, those chunks and the
    terminator. *)
Theorem ScanStream_uploads_every_byte :
  forall (data : list byte) (w : World) (c : Clamd),
    dial_fault w "unix" (address c) = None ->
    exists k w' res,
      ScanStream bytes_Reader bytes_Read (S (List.length data)) w c data
      = Some (w', res)
      /\ read_bytes bytes_Reader bytes_Read data k = data
      /\ wire (events_since w w') =
           command_frame "INSTREAM"
             ++ framed_chunks bytes_Reader bytes_Read data k
             ++ [x00; x00; x00; x00].
Proof.
  intros data w c Hd.
  destruct (bytes_reader_chunks (List.length data) data (le_n _))
    as (k & Hs & Hb & Hk).
  destruct (ScanStream_run bytes_Reader bytes_Read k (S (List.length data))
              w c data ltac:(lia) Hs Hd) as (w' & Hr & He).
  eexists k, w', _. split; [exact Hr|]. split; [exact Hb|].
  rewrite (events_since_app _ _ _ He). apply ScanStream_events_wire.
Qed.

Lemma ScanStream_uploads_every_byte_witness :
  exists k w' res,
    ScanStream bytes_Reader bytes_Read 69 calm_world unix_clamd EICAR
    = Some (w', res)
    /\ read_bytes bytes_Reader bytes_Read EICAR k = EICAR.
Proof.
  destruct (ScanStream_uploads_every_byte EICAR calm_world unix_clamd eq_refl)
    as (k & w' & res & H1 & H2 & _).
  exists k, w', res. split; [exact H1 | exact H2].
Defined.

(** ** The connection layer *)

(** X26. The four-byte prefix [sendChunk] writes reads as the length of
    the payload modulo 2^32: it is the exact length below 4 GiB, and from
    4 GiB on the prefix no longer tells the length of the payload that
    follows it. *)
Theorem sendChunk_prefix_wraps :
  forall (w : World) (conn : CLAMDConn) (data : list byte),
  exists p r0 r1,
    events_since w (fst (sendChunk w conn data))
    = [EvWrite p r0; EvWrite data r1]
    /\ be_uint32 p = Some (len data mod 2 ^ 32)%Z
    /\ ((2 ^ 32 <= len data)%Z -> be_uint32 p <> Some (len data)).
Proof.
  intros w conn data.
  exists (length_prefix (len data)), (write_outcome w 0), (write_outcome w 1).
  assert (H : be_uint32 (length_prefix (len data)) = Some (len data mod 2 ^ 32)%Z)
    by (apply be_uint32_length_prefix; unfold len; lia).
  split; [apply events_since_app, sendChunk_events|].
  split; [exact H|].
  intros Hbig Heq. rewrite H in Heq. injection Heq as Heq.
  pose proof (Z.mod_pos_bound (len data) (2 ^ 32) ltac:(lia)). lia.
Qed.

Lemma sendChunk_prefix_wraps_witness :
  exists p r0 r1,
    events_since calm_world (fst (sendChunk calm_world unix_conn EICAR))
    = [EvWrite p r0; EvWrite EICAR r1]
    /\ be_uint32 p = Some 68%Z.
Proof.
  destruct (sendChunk_prefix_wraps calm_world unix_conn EICAR)
    as (p & r0 & r1 & H1 & H2 & _).
  exists p, r0, r1. split; [exact H1|]. rewrite H2. reflexivity.
Defined.

(** Each opener dials once, [newCLAMDTcpConn] the network [tcp] and
    [newCLAMDUnixConn] the network [unix], at the address it is given, and
    returns exactly one of a connection and an error: the connection when
    the dial succeeds, the dial's own error when it fails. *)
Lemma openers_dial_once :
  forall (w : World) (address : string),
    (events_since w (fst (fst (newCLAMDTcpConn w address)))
     = [EvDial "tcp" address (dial_fault w "tcp" address)]
     /\ match dial_fault w "tcp" address with
        | None => snd (fst (newCLAMDTcpConn w address))
                  = Some (mkCLAMDConn "tcp" address)
                  /\ snd (newCLAMDTcpConn w address) = None
        | Some e => snd (fst (newCLAMDTcpConn w address)) = None
                    /\ snd (newCLAMDTcpConn w address) = Some e
        end)
    /\ (events_since w (fst (fst (newCLAMDUnixConn w address)))
        = [EvDial "unix" address (dial_fault w "unix" address)]
        /\ match dial_fault w "unix" address with
           | None => snd (fst (newCLAMDUnixConn w address))
                     = Some (mkCLAMDConn "unix" address)
                     /\ snd (newCLAMDUnixConn w address) = None
           | Some e => snd (fst (newCLAMDUnixConn w address)) = None
                       /\ snd (newCLAMDUnixConn w address) = Some e
           end).
Proof.
  intros w address. unfold newCLAMDTcpConn, newCLAMDUnixConn, net_Dial.
  split.
  - destruct (dial_fault w "tcp" address) as [e|]; cbn [fst snd];
      (split; [apply events_since_app; reflexivity | split; reflexivity]).
  - destruct (dial_fault w "unix" address) as [e|]; cbn [fst snd];
      (split; [apply events_since_app; reflexivity | split; reflexivity]).
Qed.
